(** * hwlib graphics drawables: [line::draw] and [circle::draw]

    A shallow embedding of [hwlib-graphics-drawables.hpp] and the proofs of
    the properties stated about it.

    Layout of the development:
    - machine integers: [int_fast16_t] and [uint_fast16_t] as [Z] with the
      conversion into the type (the wrap-around) written out at every
      operation, for a width [bits] that the platform chooses;
    - the collaborators the header uses but does not declare ([xy], [color],
      [window]);
    - [line.draw] and [circle.draw], statement by statement;
    - the arithmetic of the two algorithms over unbounded integers
      (closed form of the Bresenham walk, invariants of the midpoint walk);
    - the link between the two levels: inside the stated coordinate range no
      operation of the code wraps, and the code writes what the closed form
      says;
    - the properties;
    - further properties of the two drawables, and the clock, the waits and
      the pin names of [hwlib-teensy_40.hpp]. *)

From Stdlib Require Import ZArith List Lia Bool Arith.
Import ListNotations.
Local Open Scope Z_scope.

(* ================================================================== *)
(** * Machine integers *)
(* ================================================================== *)

(** [int_fast16_t] and [uint_fast16_t] are "at least 16 bits"; the width is
    the platform's choice (16 on AVR, 32 on the Cortex-M targets, 64 on a
    desktop).  It is the parameter [bits] of everything below.  A value of
    either type is a [Z]; [int_fast16_t z] and [uint_fast16_t z] convert the
    mathematical result [z] of an operation into the type, which is where a
    result that does not fit wraps around.  Arithmetic is carried out in
    the type itself: on these platforms the two types are [int] and
    [unsigned] or wider, so no operand is promoted.

    For the unsigned type the wrap-around is what C++ defines, and
    [circle::draw] relies on it ([1 - radius] and [- radius] wrap and come
    back as negative numbers when they are converted to the signed type).
    For the signed type an overflow is undefined in C++; the model lets it
    wrap, and every property below that depends on the arithmetic is
    stated for the coordinates [coord_ok], for which no operation of the
    code leaves the signed range. *)

Definition uint_fast16_t (bits : Z) (z : Z) : Z :=
  z mod 2 ^ bits.

Definition int_fast16_t (bits : Z) (z : Z) : Z :=
  (z + 2 ^ (bits - 1)) mod 2 ^ bits - 2 ^ (bits - 1).

(** The values an [int_fast16_t] holds. *)
Definition int_range (bits : Z) (z : Z) : Prop :=
  - 2 ^ (bits - 1) <= z < 2 ^ (bits - 1).

(** The coordinates for which neither algorithm wraps: an eighth of the
    signed range on either side of the origin ([|z| < 8192] at 16 bits).
    Both algorithms double differences of coordinates. *)
Definition coord_ok (bits : Z) (z : Z) : Prop :=
  - 2 ^ (bits - 3) < z < 2 ^ (bits - 3).

(* ================================================================== *)
(** * Collaborators: coordinates, colors, the window *)
(* ================================================================== *)

(** Modelled from the spec: the coordinate type [xy] is declared in another
    header.  "Signed integer x, y; supports + and - with another coordinate,
    producing a coordinate."  The components are [int_fast16_t], as the
    locals [x0 = start.x] of [line::draw] are. *)
Record xy : Type := mk_xy { xy_x : Z; xy_y : Z }.

Definition xy_add (bits : Z) (a b : xy) : xy :=
  mk_xy (int_fast16_t bits (xy_x a + xy_x b)) (int_fast16_t bits (xy_y a + xy_y b)).

Definition xy_sub (bits : Z) (a b : xy) : xy :=
  mk_xy (int_fast16_t bits (xy_x a - xy_x b)) (int_fast16_t bits (xy_y a - xy_y b)).

Definition xy_eq_dec (a b : xy) : {a = b} + {a <> b}.
Proof. decide equality; apply Z.eq_dec. Defined.

(** Modelled from the spec: the color type is declared in another header.
    "An opaque value type with a distinguished transparent sentinel and
    equality comparison against it."  [black] is the default foreground of
    both constructors. *)
Class Color (color : Type) : Type := {
  transparent : color;
  black : color;
  color_eq_dec : forall a b : color, {a = b} + {a <> b}
}.

(** [a != b] on colors. *)
Definition color_neq {color} `{Color color} (a b : color) : bool :=
  if color_eq_dec a b then false else true.

(** Modelled from the spec: the window (the pixel sink) is declared in
    another header.  "One operation, write(coordinate, color) -> void."  The
    sink is the log of the writes it has received, oldest first. *)
Definition window (color : Type) : Type := list (xy * color).

Definition write {color} (w : window color) (pos : xy) (col : color) : window color :=
  w ++ [(pos, col)].

(** Loops run on fuel: [None] is "the loop had not finished when the fuel
    ran out".  [fuel] bounds the iterations of each single loop. *)
Definition bind {A B} (m : option A) (k : A -> option B) : option B :=
  match m with
  | Some a => k a
  | None => None
  end.

Notation "x <- m ;; k" := (bind m (fun x => k))
  (at level 61, m at next level, right associativity).

(* ================================================================== *)
(** * [class line] *)
(* ================================================================== *)

Module line.
Section Defs.
Variable bits : Z.
Context {color : Type} `{Color color}.

Abbreviation int := (int_fast16_t bits).

(** The object: [start] of [drawable], then [end] and [fg]. *)
Record t : Type := make { start : xy; end_ : xy; fg : color }.

(** [swap( a, b )], by reference in the source: the new [(a, b)]. *)
Definition swap (a b : Z) : Z * Z :=
  let t := a in
  let a := b in
  let b := t in
  (a, b).

(** [abs( x )]: [x >= 0 ? x : -x]. *)
Definition abs (x : Z) : Z :=
  if 0 <=? x then x else int (- x).

(** The [for( x = x0; x != x1; x += xstep )] loop.  The arguments before
    [fg] do not change in the loop; [x], [y], [E] and the window do. *)
Fixpoint draw_loop (fuel : nat) (steep : bool)
    (x1 xstep ystep TwoDy TwoDyTwoDx : Z) (fg : color)
    (x y E : Z) (w : window color) : option (window color) :=
  if x =? x1 then Some w else
  match fuel with
  | O => None
  | S fuel' =>
      let '(xDraw, yDraw) := if steep then (y, x) else (x, y) in
      let w := write w (mk_xy xDraw yDraw) fg in
      let '(E, y) :=
        if 0 <? E
        then (int (E + TwoDyTwoDx), int (y + ystep))
        else (int (E + TwoDy), y) in
      draw_loop fuel' steep x1 xstep ystep TwoDy TwoDyTwoDx fg
                (int (x + xstep)) y E w
  end.

(** [line::draw].  [steep] holds 0 or 1 in the source; it is a [bool]
    here. *)
Definition draw (fuel : nat) (l : t) (w : window color) : option (window color) :=
  let x0 := xy_x (start l) in
  let y0 := xy_y (start l) in
  let x1 := xy_x (end_ l) in
  let y1 := xy_y (end_ l) in
  let Dx := int (x1 - x0) in
  let Dy := int (y1 - y0) in
  let steep := abs Dx <=? abs Dy in
  let '(x0, y0, x1, y1, Dx, Dy) :=
    if steep then
      let '(x0, y0) := swap x0 y0 in
      let '(x1, y1) := swap x1 y1 in
      (x0, y0, x1, y1, int (x1 - x0), int (y1 - y0))
    else (x0, y0, x1, y1, Dx, Dy) in
  let '(xstep, Dx) := if Dx <? 0 then (-1, int (- Dx)) else (1, Dx) in
  let '(ystep, Dy) := if Dy <? 0 then (-1, int (- Dy)) else (1, Dy) in
  let TwoDy := int (2 * Dy) in
  let TwoDyTwoDx := int (TwoDy - int (2 * Dx)) in
  let E := int (TwoDy - Dx) in
  let y := y0 in
  draw_loop fuel steep x1 xstep ystep TwoDy TwoDyTwoDx (fg l) x0 y E w.

End Defs.
End line.

(* ================================================================== *)
(** * [class circle] *)
(* ================================================================== *)

Module circle.
Section Defs.
Variable bits : Z.
Context {color : Type} `{Color color}.

Abbreviation int := (int_fast16_t bits).
Abbreviation uint := (uint_fast16_t bits).

(** The object: [start] of [drawable], then [radius] (a [uint_fast16_t]),
    [fg] and [bg]. *)
Record t : Type := make { start : xy; radius : Z; fg : color; bg : color }.

(** The eight [w.write] of one round of the octant loop. *)
Definition write_octants (c : t) (x y : Z) (w : window color) : window color :=
  let w := write w (xy_add bits (start c) (mk_xy x y)) (fg c) in
  let w := write w (xy_add bits (start c) (mk_xy (int (- x)) y)) (fg c) in
  let w := write w (xy_add bits (start c) (mk_xy x (int (- y)))) (fg c) in
  let w := write w (xy_add bits (start c) (mk_xy (int (- x)) (int (- y)))) (fg c) in
  let w := write w (xy_add bits (start c) (mk_xy y x)) (fg c) in
  let w := write w (xy_add bits (start c) (mk_xy (int (- y)) x)) (fg c) in
  let w := write w (xy_add bits (start c) (mk_xy y (int (- x)))) (fg c) in
  let w := write w (xy_add bits (start c) (mk_xy (int (- y)) (int (- x)))) (fg c) in
  w.

(** The four [line( ..., bg ).draw( w )] of one round of the octant loop. *)
Definition draw_chords (fuel : nat) (c : t) (x y : Z) (w : window color)
    : option (window color) :=
  w <- line.draw bits fuel
         (line.make (xy_add bits (start c) (mk_xy (int (- x)) y))
                    (xy_add bits (start c) (mk_xy x y)) (bg c)) w ;;
  w <- line.draw bits fuel
         (line.make (xy_add bits (start c) (mk_xy (int (- x)) (int (- y))))
                    (xy_add bits (start c) (mk_xy x (int (- y)))) (bg c)) w ;;
  w <- line.draw bits fuel
         (line.make (xy_add bits (start c) (mk_xy (int (- y)) x))
                    (xy_add bits (start c) (mk_xy y x)) (bg c)) w ;;
  line.draw bits fuel
         (line.make (xy_add bits (start c) (mk_xy (int (- y)) (int (- x))))
                    (xy_add bits (start c) (mk_xy y (int (- x)))) (bg c)) w.

(** The [while( x < y )] loop.  [line_fuel] is the fuel of the chord
    lines, [fuel] that of this loop. *)
Fixpoint draw_loop (line_fuel fuel : nat) (c : t)
    (fx ddFx ddFy x y : Z) (w : window color) : option (window color) :=
  if x <? y then
    match fuel with
    | O => None
    | S fuel' =>
        let '(y, ddFy, fx) :=
          if 0 <=? fx then
            let y := int (y - 1) in
            let ddFy := int (ddFy + 2) in
            let fx := int (fx + ddFy) in
            (y, ddFy, fx)
          else (y, ddFy, fx) in
        let x := int (x + 1) in
        let ddFx := int (ddFx + 2) in
        let fx := int (fx + ddFx) in
        let w := write_octants c x y w in
        w <- (if color_neq (bg c) transparent
              then draw_chords line_fuel c x y w
              else Some w) ;;
        draw_loop line_fuel fuel' c fx ddFx ddFy x y w
    end
  else Some w.

(** [circle::draw].  [radius] is unsigned: [1 - radius], [-2 * radius] and
    [- radius] are computed in [uint_fast16_t] and then converted to the
    [int_fast16_t] they are stored in or passed as. *)
Definition draw (fuel : nat) (c : t) (w : window color) : option (window color) :=
  if radius c <? 1 then Some w else
  let fx := int (uint (1 - radius c)) in
  let ddFx := 1 in
  let ddFy := int (uint (uint (-2) * radius c)) in
  let x := 0 in
  let y := int (radius c) in
  let w := write w (xy_add bits (start c) (mk_xy 0 (int (radius c)))) (fg c) in
  let w := write w (xy_add bits (start c) (mk_xy 0 (int (uint (- radius c))))) (fg c) in
  let w := write w (xy_add bits (start c) (mk_xy (int (radius c)) 0)) (fg c) in
  let w := write w (xy_add bits (start c) (mk_xy (int (uint (- radius c))) 0)) (fg c) in
  w <- (if color_neq (bg c) transparent then
          let w := write w (xy_add bits (start c) (mk_xy 0 (int (radius c)))) (fg c) in
          let w := write w (xy_add bits (start c) (mk_xy 0 (int (uint (- radius c))))) (fg c) in
          line.draw bits fuel
            (line.make (xy_sub bits (start c) (mk_xy (int (radius c)) 0))
                       (xy_add bits (start c) (mk_xy (int (radius c)) 0)) (fg c)) w
        else Some w) ;;
  draw_loop fuel fuel c fx ddFx ddFy x y w.

End Defs.
End circle.

(* ================================================================== *)
(** * The Bresenham walk over unbounded integers *)
(* ================================================================== *)

(** The direction of a step: [-1] for a negative difference, [+1]
    otherwise (the [xstep] and [ystep] of the source). *)
Definition sgn (d : Z) : Z := if d <? 0 then -1 else 1.

(** [max(|Dx|, |Dy|)] and [min(|Dx|, |Dy|)] of a line from [a] to [b]. *)
Definition line_major (a b : xy) : Z :=
  Z.max (Z.abs (xy_x b - xy_x a)) (Z.abs (xy_y b - xy_y a)).

Definition line_minor (a b : xy) : Z :=
  Z.min (Z.abs (xy_x b - xy_x a)) (Z.abs (xy_y b - xy_y a)).

(** How far the walk has moved on the minor axis after [i] steps on the
    major axis, for a line of [n] major and [m] minor steps: [i * m / n]
    rounded to the nearest integer, a half rounded down. *)
Definition bres (n m i : Z) : Z := (2 * i * m + n - 1) / (2 * n).

(** The error term [E] of the source when step [i] begins. *)
Definition bres_error (n m i : Z) : Z :=
  2 * m * (i + 1) - n - 2 * n * bres n m i.

(** The pixel of step [i] of a walk that starts at [a0] on the major and
    [b0] on the minor axis. *)
Definition walk_pixel (steep : bool) (a0 b0 sa sb n m i : Z) : xy :=
  if steep
  then mk_xy (b0 + sb * bres n m i) (a0 + sa * i)
  else mk_xy (a0 + sa * i) (b0 + sb * bres n m i).

(** The pixel of step [i] of the line from [a] to [b]. *)
Definition line_pixel (a b : xy) (i : Z) : xy :=
  let Dx := xy_x b - xy_x a in
  let Dy := xy_y b - xy_y a in
  if Z.abs Dx <=? Z.abs Dy
  then walk_pixel true (xy_y a) (xy_x a) (sgn Dy) (sgn Dx) (Z.abs Dy) (Z.abs Dx) i
  else walk_pixel false (xy_x a) (xy_y a) (sgn Dx) (sgn Dy) (Z.abs Dx) (Z.abs Dy) i.

(** The pixels of steps [from], [from + 1], ..., [from + len - 1]. *)
Definition steps (from : Z) (len : nat) : list Z :=
  map (fun k => from + Z.of_nat k) (seq 0 len).

(** The pixels of the line from [a] to [b], in the order of the walk. *)
Definition line_pixels (a b : xy) : list xy :=
  map (line_pixel a b) (steps 0 (Z.to_nat (line_major a b))).

(** A line passes exactly half-way between two pixels at step [i] when
    [i * m / n] is an integer plus a half, that is when [2 * i * m + n] is
    a multiple of [2 * n].  A line is tie-free when no inner step does. *)
Definition tie_free (a b : xy) : Prop :=
  forall i, 0 < i < line_major a b ->
    (2 * i * line_minor a b + line_major a b) mod (2 * line_major a b) <> 0.

(** How far a pixel [p] lies from the start [a] of the line from [a] to
    [b], counted towards [b]: [along] on the axis of the longer extent (the
    axis the loop of the source steps on), [across] on the other one. *)
Definition along (a b p : xy) : Z :=
  let Dx := xy_x b - xy_x a in
  let Dy := xy_y b - xy_y a in
  if Z.abs Dx <=? Z.abs Dy
  then sgn Dy * (xy_y p - xy_y a)
  else sgn Dx * (xy_x p - xy_x a).

Definition across (a b p : xy) : Z :=
  let Dx := xy_x b - xy_x a in
  let Dy := xy_y b - xy_y a in
  if Z.abs Dx <=? Z.abs Dy
  then sgn Dx * (xy_x p - xy_x a)
  else sgn Dy * (xy_y p - xy_y a).

(** [p] is the pixel nearest to the ideal line from [a] to [b] at its
    distance [i = along a b p] from the start, and where the ideal line
    passes exactly half-way between two pixels [p] is the one nearer to the
    start: with [n] the longer and [m] the shorter extent, its distance [s]
    across satisfies [i * m / n - 1/2 <= s < i * m / n + 1/2]. *)
Definition rounded_to_start (a b p : xy) : Prop :=
  2 * along a b p * line_minor a b - line_major a b
    <= 2 * line_major a b * across a b p
    < 2 * along a b p * line_minor a b + line_major a b.

(** Both end points within the coordinates that do not wrap. *)
Definition line_fits (bits : Z) (a b : xy) : Prop :=
  coord_ok bits (xy_x a) /\ coord_ok bits (xy_y a) /\
  coord_ok bits (xy_x b) /\ coord_ok bits (xy_y b).

(** The writes of a list of pixels in one color. *)
Definition paint {color} (col : color) (ps : list xy) : list (xy * color) :=
  map (fun p => (p, col)) ps.

(** The pixels a window has received. *)
Definition pixels {color} (w : window color) : list xy := map fst w.

(* ================================================================== *)
(** * The midpoint walk over unbounded integers *)
(* ================================================================== *)

(** The decision value [fx] of the source when the walk of a circle of
    radius [r] stands at [(x, y)]: the circle equation at the midpoint
    [(x + 1, y - 1/2)], less a quarter. *)
Definition midpoint (r x y : Z) : Z :=
  (x + 1) * (x + 1) + y * y - y - r * r.

(** The [y] of the next round: one less when the decision value is not
    negative. *)
Definition next_y (r x y : Z) : Z :=
  if 0 <=? midpoint r x y then y - 1 else y.

(** The [(x, y)] of the successive rounds of the octant loop that starts
    at [(x, y)], for at most [n] rounds. *)
Fixpoint octant (n : nat) (r x y : Z) : list (Z * Z) :=
  match n with
  | O => []
  | S n' =>
      if x <? y
      then (x + 1, next_y r x y) :: octant n' r (x + 1) (next_y r x y)
      else []
  end.

(** The rounds of a circle of radius [r]: the loop starts at [(0, r)] and
    has ended after [r] rounds. *)
Definition rounds (r : Z) : list (Z * Z) := octant (Z.to_nat r) r 0 r.

(** What holds of [(x, y)] whenever the loop tests [x < y]. *)
Definition walk_inv (r x y : Z) : Prop :=
  0 <= x <= y + 1 /\ 0 <= y <= r /\ x <= r /\
  - 2 * r <= midpoint r x y <= 2 * x + 2 /\
  (x < y -> midpoint r x y <= 2 * x + 1) /\
  r * r <= x * x + (y + 1) * (y + 1).

(** The pixel at offset [(dx, dy)] from [c]. *)
Definition shift (c : xy) (dx dy : Z) : xy :=
  mk_xy (xy_x c + dx) (xy_y c + dy).

(** The four axis-extreme pixels, in the order of the source: top, bottom,
    right, left. *)
Definition axis_pixels (c : xy) (r : Z) : list xy :=
  [shift c 0 r; shift c 0 (- r); shift c r 0; shift c (- r) 0].

(** The eight pixels of one round, in the order of the source. *)
Definition octant_pixels (c : xy) (x y : Z) : list xy :=
  [shift c x y; shift c (- x) y; shift c x (- y); shift c (- x) (- y);
   shift c y x; shift c (- y) x; shift c y (- x); shift c (- y) (- x)].

(** The pixels of the four chord lines of one round, in the order of the
    source. *)
Definition chord_pixels (c : xy) (x y : Z) : list xy :=
  line_pixels (shift c (- x) y) (shift c x y) ++
  line_pixels (shift c (- x) (- y)) (shift c x (- y)) ++
  line_pixels (shift c (- y) x) (shift c y x) ++
  line_pixels (shift c (- y) (- x)) (shift c y (- x)).

(** The writes of one round. *)
Definition round_writes {color} `{Color color} (c : circle.t) (p : Z * Z)
    : list (xy * color) :=
  paint (circle.fg c) (octant_pixels (circle.start c) (fst p) (snd p)) ++
  (if color_neq (circle.bg c) transparent
   then paint (circle.bg c) (chord_pixels (circle.start c) (fst p) (snd p))
   else []).

(** The writes before the octant loop. *)
Definition head_writes {color} `{Color color} (c : circle.t) : list (xy * color) :=
  paint (circle.fg c) (axis_pixels (circle.start c) (circle.radius c)) ++
  (if color_neq (circle.bg c) transparent
   then paint (circle.fg c)
          ([shift (circle.start c) 0 (circle.radius c);
            shift (circle.start c) 0 (- circle.radius c)] ++
           line_pixels (shift (circle.start c) (- circle.radius c) 0)
                       (shift (circle.start c) (circle.radius c) 0))
   else []).

(** All the writes of a circle, in order. *)
Definition circle_writes {color} `{Color color} (c : circle.t) : list (xy * color) :=
  if circle.radius c <? 1 then []
  else head_writes c ++ flat_map (round_writes c) (rounds (circle.radius c)).

(** The circle within the coordinates that do not wrap. *)
Definition circle_fits (bits : Z) {color} (c : circle.t (color := color)) : Prop :=
  0 <= circle.radius c /\
  coord_ok bits (xy_x (circle.start c) - circle.radius c) /\
  coord_ok bits (xy_x (circle.start c) + circle.radius c) /\
  coord_ok bits (xy_y (circle.start c) - circle.radius c) /\
  coord_ok bits (xy_y (circle.start c) + circle.radius c).

(** The offsets an outline-only circle of radius [r] writes at. *)
Definition on_outline (r x y : Z) : Prop :=
  (x = 0 /\ Z.abs y = Z.abs r) \/ (Z.abs x = Z.abs r /\ y = 0) \/
  exists p, In p (rounds r) /\
    ((Z.abs x = Z.abs (fst p) /\ Z.abs y = Z.abs (snd p)) \/
     (Z.abs x = Z.abs (snd p) /\ Z.abs y = Z.abs (fst p))).

(** The colors a circle may write: its foreground, and its fill color
    when that is not the transparent sentinel. *)
Definition circle_color {color} `{Color color} (c : circle.t) (pc : xy * color) : Prop :=
  snd pc = circle.fg c \/ (snd pc = circle.bg c /\ circle.bg c <> transparent).

(* ================================================================== *)
(** * A palette to run the code on *)
(* ================================================================== *)

Inductive palette : Type := Transparent | Black | White.

#[export] Instance palette_color : Color palette.
Proof.
  refine {| transparent := Transparent; black := Black; color_eq_dec := _ |}.
  decide equality.
Defined.


(* ================================================================== *)
(** * Pictures: what the writes leave on the sink *)
(* ================================================================== *)

(** The color a pixel shows after the writes of [w]: the color of the last
    write to it, if there is one. *)
Definition final_color {color} (w : window color) (p : xy) : option color :=
  fold_left (fun shown pc => if xy_eq_dec (fst pc) p then Some (snd pc) else shown)
            w None.

(** Two pixels are neighbours when they differ by at most one on either
    axis and are not the same pixel. *)
Definition adjacent (p q : xy) : Prop :=
  Z.max (Z.abs (xy_x q - xy_x p)) (Z.abs (xy_y q - xy_y p)) = 1.

(** A path: every pixel is a neighbour of the next. *)
Fixpoint chain (ps : list xy) : Prop :=
  match ps with
  | p :: (q :: _) as rest => adjacent p q /\ chain rest
  | _ => True
  end.

(* ================================================================== *)
(** * The clock and the waits of [hwlib-teensy_40.hpp] *)
(* ================================================================== *)

Module hwlib.
Section Defs.

(** The hardware clock.  [mimxrt1062::now_ticks()] and
    [mimxrt1062::ticks_per_us()] are declared in another header; they are
    parameters here.  [ticks k] is the [uint64_t] that the [k]-th call of
    [now_ticks()] returns, whatever the hardware makes it, and
    [ticks_per_us] the constant that [ticks_per_us()] returns.  The state
    that the functions below pass on is the number of calls of
    [now_ticks()] made so far. *)
Variable ticks : nat -> Z.
Variable ticks_per_us : Z.

(** The width of [int_fast32_t], at least 32. *)
Variable bits32 : Z.

Definition uint64_t (z : Z) : Z := z mod 2 ^ 64.


(** [now_ticks()]: the next reading of the clock. *)
Definition now_ticks (k : nat) : Z * nat := (ticks k, S k).

(** [now_us()]: [now_ticks() / ticks_per_us()], a division of
    [uint64_t]. *)
Definition now_us (k : nat) : Z * nat :=
  let '(t, k) := now_ticks k in
  (uint64_t (t / ticks_per_us), k).

(** The [while( now_us() < end ){}] of [wait_us_busy]; [fuel] bounds the
    number of times the condition is evaluated. *)
Fixpoint wait_us_busy_loop (fuel : nat) (end_ : Z) (k : nat) : option nat :=
  match fuel with
  | O => None
  | S fuel' =>
      let '(now, k) := now_us k in
      if now <? end_ then wait_us_busy_loop fuel' end_ k else Some k
  end.

(** [wait_us_busy( n )].  In [now_us() + n] the [int_fast32_t n] is
    converted to [uint64_t] and the sum is a [uint64_t]. *)
Definition wait_us_busy (fuel : nat) (n : Z) (k : nat) : option nat :=
  let '(now, k) := now_us k in
  let end_ := uint64_t (now + uint64_t n) in
  wait_us_busy_loop fuel end_ k.



(** The waits that are not busy: in this target they are the same code,
    the call of the background work being commented out. *)
Fixpoint wait_us_loop (fuel : nat) (end_ : Z) (k : nat) : option nat :=
  match fuel with
  | O => None
  | S fuel' =>
      let '(now, k) := now_us k in
      if now <? end_ then wait_us_loop fuel' end_ k else Some k
  end.

Definition wait_us (fuel : nat) (n : Z) (k : nat) : option nat :=
  let '(now, k) := now_us k in
  let end_ := uint64_t (now + uint64_t n) in
  wait_us_loop fuel end_ k.



(** The microseconds that the [k]-th reading of the clock shows. *)
Definition us_at (k : nat) : Z := ticks k / ticks_per_us.

(** What the hardware is taken to do in the properties: the counter is a
    [uint64_t] and there is at least one tick in a microsecond. *)
Definition clock_ok : Prop :=
  0 < ticks_per_us /\ forall k, 0 <= ticks k < 2 ^ 64.

End Defs.
End hwlib.

(** Two clocks to run the waits on.  The first has 600 ticks in a
    microsecond and is read once every millisecond, up to [2^63] ticks.  The
    second shows 0 at its first reading and its last value ever after, one
    tick a microsecond. *)
Definition steady_ticks (k : nat) : Z := Z.min (600000 * Z.of_nat k) (2 ^ 63).

Definition late_ticks (k : nat) : Z :=
  match k with
  | O => 0
  | S _ => 2 ^ 64 - 1
  end.

(* ================================================================== *)
(** * [enum class pins] of [hwlib-teensy_40.hpp] *)
(* ================================================================== *)

Module teensy_40.

(** The enumerators, in the order of the declaration. *)
Inductive pins : Type :=
  | d0 | d1 | d2 | d3 | d4 | d5 | d6 | d7 | d8 | d9 | d10 | d11
  | d12 | d13 | d14 | d15 | d16 | d17 | d18 | d19 | d20 | d21 | d22 | d23
  | a0 | a1 | a2 | a3 | a4 | a5 | a6 | a7 | a8 | a9
  | rx1 | tx1 | rx2 | tx2 | tx3 | rx3 | rx4 | tx4 | tx5 | rx5.

Definition pins_eq_dec (p q : pins) : {p = q} + {p <> q}.
Proof. decide equality. Defined.

(** The declaration: every enumerator with the value the source gives it,
    if it gives one. *)
Definition pins_declaration : list (pins * option Z) :=
  [(d0, Some 0); (d1, None); (d2, None); (d3, None); (d4, None); (d5, None);
   (d6, None); (d7, None); (d8, None); (d9, None); (d10, None); (d11, None);
   (d12, None); (d13, None); (d14, None); (d15, None); (d16, None); (d17, None);
   (d18, None); (d19, None); (d20, None); (d21, None); (d22, None); (d23, None);
   (a0, Some 14); (a1, None); (a2, None); (a3, None); (a4, None); (a5, None);
   (a6, None); (a7, None); (a8, None); (a9, None);
   (rx1, Some 0); (tx1, None); (rx2, Some 7); (tx2, None);
   (tx3, Some 14); (rx3, None); (rx4, None); (tx4, None);
   (tx5, Some 20); (rx5, None)].

(** The values of the enumerators: the one given, or one more than that of
    the enumerator before. *)
Fixpoint enumerate (previous : Z) (declaration : list (pins * option Z))
    : list (pins * Z) :=
  match declaration with
  | [] => []
  | (p, Some v) :: rest => (p, v) :: enumerate v rest
  | (p, None) :: rest => (p, previous + 1) :: enumerate (previous + 1) rest
  end.

(** [(int)pin_number], the index into [core_pin_struct_array]. *)
Definition pin_number (p : pins) : Z :=
  match find (fun pv => if pins_eq_dec (fst pv) p then true else false)
             (enumerate (-1) pins_declaration) with
  | Some pv => snd pv
  | None => 0
  end.

(** The digital pin with a number. *)
Definition digital (n : Z) : option pins :=
  nth_error [d0; d1; d2; d3; d4; d5; d6; d7; d8; d9; d10; d11;
             d12; d13; d14; d15; d16; d17; d18; d19; d20; d21; d22; d23]
            (Z.to_nat n).

End teensy_40.
(* ================================================================== *)
(** * Machine integers: inside the range nothing wraps *)
(* ================================================================== *)

Lemma pow_split bits :
  16 <= bits ->
  exists P, 8192 <= P /\ 2 ^ (bits - 3) = P /\ 2 ^ (bits - 1) = 4 * P /\ 2 ^ bits = 8 * P.
Proof.
  intros Hb. exists (2 ^ (bits - 3)). repeat split.
  - change 8192 with (2 ^ 13). apply Z.pow_le_mono_r; lia.
  - replace (bits - 1) with (2 + (bits - 3)) by lia.
    rewrite Z.pow_add_r by lia. reflexivity.
  - replace bits with (3 + (bits - 3)) at 1 by lia.
    rewrite Z.pow_add_r by lia. reflexivity.
Qed.

Lemma int_id bits z :
  16 <= bits -> int_range bits z -> int_fast16_t bits z = z.
Proof.
  intros Hb Hz. destruct (pow_split bits Hb) as (P & HP & _ & H1 & H0).
  unfold int_range, int_fast16_t in *. rewrite H1, H0 in *.
  rewrite Z.mod_small by lia. lia.
Qed.

Lemma int_uint bits z :
  16 <= bits -> int_fast16_t bits (uint_fast16_t bits z) = int_fast16_t bits z.
Proof.
  intros Hb. destruct (pow_split bits Hb) as (P & HP & _ & H1 & H0).
  unfold int_fast16_t, uint_fast16_t. f_equal.
  rewrite Zplus_mod_idemp_l. reflexivity.
Qed.

Lemma int_uint_mul_l bits a b :
  int_fast16_t bits (uint_fast16_t bits a * b) = int_fast16_t bits (a * b).
Proof.
  unfold int_fast16_t, uint_fast16_t. f_equal.
  rewrite Zplus_mod, Zmult_mod_idemp_l, <- Zplus_mod. reflexivity.
Qed.

(** Four times a coordinate that does not wrap still fits. *)
Lemma coord_int_range bits z :
  16 <= bits ->
  - (4 * 2 ^ (bits - 3)) <= z < 4 * 2 ^ (bits - 3) ->
  int_range bits z.
Proof.
  intros Hb Hz. destruct (pow_split bits Hb) as (P & HP & H3 & H1 & H0).
  unfold int_range. rewrite H1. lia.
Qed.

(* ================================================================== *)
(** * The Bresenham walk: arithmetic *)
(* ================================================================== *)

Lemma sgn_cases d : (sgn d = 1 /\ 0 <= d) \/ (sgn d = -1 /\ d < 0).
Proof. unfold sgn. destruct (Z.ltb_spec d 0); lia. Qed.

Lemma sgn_abs d : sgn d * Z.abs d = d.
Proof. destruct (sgn_cases d) as [[-> ?]|[-> ?]]; lia. Qed.

(** [bres n m i] is the quotient of [2 * i * m + n - 1] by [2 * n]. *)
Lemma bres_bounds n m i :
  0 < n ->
  2 * n * bres n m i <= 2 * i * m + n - 1 < 2 * n * (bres n m i + 1).
Proof.
  intros Hn. unfold bres.
  pose proof (Z.mul_div_le (2 * i * m + n - 1) (2 * n)).
  pose proof (Z.mul_succ_div_gt (2 * i * m + n - 1) (2 * n)).
  lia.
Qed.

Lemma bres_unique n m i q :
  0 < n ->
  2 * n * q <= 2 * i * m + n - 1 < 2 * n * (q + 1) ->
  bres n m i = q.
Proof.
  intros Hn Hq. unfold bres. symmetry.
  apply Z.div_unique with (r := 2 * i * m + n - 1 - 2 * n * q); lia.
Qed.

Lemma bres_0 n m : 0 <= n -> bres n m 0 = 0.
Proof.
  intros Hn. destruct (Z.eq_dec n 0) as [->|Hz].
  - reflexivity.
  - apply bres_unique; lia.
Qed.

Lemma bres_end n m : 0 < n -> bres n m n = m.
Proof. intros Hn. apply bres_unique; nia. Qed.

Lemma bres_error_bounds n m i :
  0 < n -> 2 * m - 2 * n < bres_error n m i <= 2 * m.
Proof.
  intros Hn. unfold bres_error. pose proof (bres_bounds n m i Hn). nia.
Qed.

(** The step of the source: the minor axis advances exactly when the error
    term is positive. *)
Lemma bres_step_pos n m i :
  0 < n -> 0 <= m <= n -> 0 < bres_error n m i ->
  bres n m (i + 1) = bres n m i + 1.
Proof.
  intros Hn Hm HE. unfold bres_error in HE.
  pose proof (bres_bounds n m i Hn).
  apply bres_unique; nia.
Qed.

Lemma bres_step_neg n m i :
  0 < n -> 0 <= m <= n -> bres_error n m i <= 0 ->
  bres n m (i + 1) = bres n m i.
Proof.
  intros Hn Hm HE. unfold bres_error in HE.
  pose proof (bres_bounds n m i Hn).
  apply bres_unique; nia.
Qed.

Lemma bres_range n m i :
  0 < n -> 0 <= m <= n -> 0 <= i <= n -> 0 <= bres n m i <= m.
Proof.
  intros Hn Hm Hi. pose proof (bres_bounds n m i Hn). nia.
Qed.

Lemma steps_S from len : steps from (S len) = from :: steps (from + 1) len.
Proof.
  unfold steps. simpl. rewrite Z.add_0_r. f_equal.
  rewrite <- seq_shift, map_map. apply map_ext. intros k. lia.
Qed.

Lemma paint_cons {color} (col : color) p ps :
  paint col (p :: ps) = (p, col) :: paint col ps.
Proof. reflexivity. Qed.

Lemma paint_app {color} (col : color) ps qs :
  paint col (ps ++ qs) = paint col ps ++ paint col qs.
Proof. apply map_app. Qed.

Lemma paint_length {color} (col : color) ps : length (paint col ps) = length ps.
Proof. apply length_map. Qed.

Lemma pixels_paint {color} (col : color) ps : pixels (paint col ps) = ps.
Proof.
  unfold pixels, paint. rewrite map_map. simpl. apply map_id.
Qed.

Lemma steps_length from len : length (steps from len) = len.
Proof. unfold steps. rewrite length_map, length_seq. reflexivity. Qed.

Lemma in_steps from len i :
  In i (steps from len) <-> from <= i < from + Z.of_nat len.
Proof.
  unfold steps. rewrite in_map_iff. split.
  - intros (k & <- & Hk). apply in_seq in Hk. lia.
  - intros Hi. exists (Z.to_nat (i - from)). split; [lia|].
    apply in_seq. lia.
Qed.

(* ================================================================== *)
(** * [line::draw] writes the Bresenham walk *)
(* ================================================================== *)

Section LineLoop.
Context {color : Type} `{Color color}.
Variable bits : Z.
Hypothesis Hbits : 16 <= bits.

(** A value within four times the coordinate range converts to itself. *)
Lemma int_fits z :
  - (4 * 2 ^ (bits - 3)) <= z < 4 * 2 ^ (bits - 3) ->
  int_fast16_t bits z = z.
Proof.
  intros Hz. apply int_id; [assumption|].
  apply coord_int_range; assumption.
Qed.

(** The loop, started at step [i] with the state the closed form gives,
    writes the pixels of the remaining steps. *)
Lemma line_loop_walk (steep : bool) (a0 b0 sa sb n m : Z) (fg : color) :
  (sa = 1 \/ sa = -1) -> (sb = 1 \/ sb = -1) ->
  0 <= m <= n ->
  coord_ok bits a0 -> coord_ok bits (a0 + sa * n) ->
  coord_ok bits b0 -> coord_ok bits (b0 + sb * m) ->
  forall (k : nat) (i : Z) (fuel : nat) (w : window color),
    0 <= i -> i + Z.of_nat k = n -> (k <= fuel)%nat ->
    line.draw_loop bits fuel steep (a0 + sa * n) sa sb (2 * m) (2 * m - 2 * n) fg
      (a0 + sa * i) (b0 + sb * bres n m i) (bres_error n m i) w
    = Some (w ++ paint fg (map (walk_pixel steep a0 b0 sa sb n m) (steps i k))).
Proof.
  intros Hsa Hsb Hm Ha0 Ha1 Hb0 Hb1. unfold coord_ok in *.
  induction k as [|k IH]; intros i fuel w Hi Hk Hfuel.
  - assert (i = n) by lia. subst i.
    destruct fuel; simpl; rewrite Z.eqb_refl, app_nil_r; reflexivity.
  - assert (Hn : 0 < n) by lia.
    destruct fuel as [|fuel]; [lia|].
    rewrite steps_S.
    pose proof (bres_error_bounds n m i Hn) as HE.
    pose proof (bres_range n m i Hn Hm ltac:(lia)) as Hs.
    pose proof (bres_range n m (i + 1) Hn Hm ltac:(lia)) as Hs1.
    assert (Hx : int_fast16_t bits (a0 + sa * i + sa) = a0 + sa * (i + 1)).
    { rewrite int_fits by nia. ring. }
    assert (Hw : forall (x y : Z) (w0 : window color),
               line.draw_loop bits fuel steep (a0 + sa * n) sa sb (2 * m)
                 (2 * m - 2 * n) fg (a0 + sa * (i + 1)) (b0 + sb * bres n m (i + 1))
                 (bres_error n m (i + 1))
                 (write w (walk_pixel steep a0 b0 sa sb n m i) fg)
               = Some (w ++ (walk_pixel steep a0 b0 sa sb n m i, fg)
                         :: paint fg (map (walk_pixel steep a0 b0 sa sb n m)
                                          (steps (i + 1) k)))).
    { intros _ _ _. rewrite (IH (i + 1) fuel) by lia.
      unfold write. rewrite <- app_assoc. reflexivity. }
    specialize (Hw 0 0 w).
    rewrite map_cons, paint_cons. cbn [line.draw_loop].
    destruct (Z.eqb_spec (a0 + sa * i) (a0 + sa * n)) as [He|_]; [nia|].
    rewrite Hx.
    destruct (Z.ltb_spec 0 (bres_error n m i)) as [Hpos|Hneg].
    + pose proof (bres_step_pos n m i Hn Hm Hpos) as Hstep.
      assert (HE1 : int_fast16_t bits (bres_error n m i + (2 * m - 2 * n))
                    = bres_error n m (i + 1)).
      { rewrite int_fits by nia. unfold bres_error. rewrite Hstep. ring. }
      assert (Hy1 : int_fast16_t bits (b0 + sb * bres n m i + sb)
                    = b0 + sb * bres n m (i + 1)).
      { rewrite Hstep. rewrite int_fits by nia. ring. }
      rewrite HE1, Hy1. rewrite <- Hw.
      unfold walk_pixel. destruct steep; reflexivity.
    + pose proof (bres_step_neg n m i Hn Hm Hneg) as Hstep.
      assert (HE1 : int_fast16_t bits (bres_error n m i + 2 * m)
                    = bres_error n m (i + 1)).
      { rewrite int_fits by nia. unfold bres_error. rewrite Hstep. ring. }
      rewrite HE1. rewrite <- Hw. rewrite Hstep.
      unfold walk_pixel. destruct steep; reflexivity.
Qed.

End LineLoop.

Section LineDraw.
Context {color : Type} `{Color color}.
Variable bits : Z.
Hypothesis Hbits : 16 <= bits.

Lemma abs_fits d :
  - (4 * 2 ^ (bits - 3)) < d < 4 * 2 ^ (bits - 3) ->
  line.abs bits d = Z.abs d.
Proof.
  intros Hd. unfold line.abs. destruct (Z.leb_spec 0 d).
  - lia.
  - rewrite int_fits by (assumption || lia). lia.
Qed.

Lemma step_fits d :
  - (4 * 2 ^ (bits - 3)) < d < 4 * 2 ^ (bits - 3) ->
  (if d <? 0 then (-1, int_fast16_t bits (- d)) else (1, d)) = (sgn d, Z.abs d).
Proof.
  intros Hd. unfold sgn. destruct (Z.ltb_spec d 0).
  - rewrite int_fits by (assumption || lia). f_equal. lia.
  - f_equal. lia.
Qed.

(** Inside the coordinate range [line::draw] appends the pixels of the
    Bresenham walk, in the order of the walk, in the line's color. *)
Lemma line_draw_walk (fuel : nat) (l : line.t) (w : window color) :
  line_fits bits (line.start l) (line.end_ l) ->
  (Z.to_nat (line_major (line.start l) (line.end_ l)) <= fuel)%nat ->
  line.draw bits fuel l w
  = Some (w ++ paint (line.fg l) (line_pixels (line.start l) (line.end_ l))).
Proof.
  destruct l as [[x0 y0] [x1 y1] fg].
  unfold line_fits, line_pixels, line_pixel, line_major, line.draw, line.swap.
  cbn [line.start line.end_ line.fg xy_x xy_y].
  intros (Hx0 & Hy0 & Hx1 & Hy1) Hfuel.
  assert (HDx : - (2 * 2 ^ (bits - 3)) < x1 - x0 < 2 * 2 ^ (bits - 3))
    by (unfold coord_ok in *; lia).
  assert (HDy : - (2 * 2 ^ (bits - 3)) < y1 - y0 < 2 * 2 ^ (bits - 3))
    by (unfold coord_ok in *; lia).
  rewrite (int_fits bits Hbits (x1 - x0)) by lia.
  rewrite (int_fits bits Hbits (y1 - y0)) by lia.
  rewrite !abs_fits by lia.
  destruct (Z.leb_spec (Z.abs (x1 - x0)) (Z.abs (y1 - y0))) as [Hst|Hst].
  - rewrite !step_fits by lia. cbv beta iota zeta.
    rewrite Z.max_r in * by lia.
    rewrite (int_fits bits Hbits (2 * Z.abs (x1 - x0))) by lia.
    rewrite (int_fits bits Hbits (2 * Z.abs (y1 - y0))) by lia.
    rewrite !int_fits by lia.
    pose proof (line_loop_walk bits Hbits true y0 x0 (sgn (y1 - y0)) (sgn (x1 - x0))
                  (Z.abs (y1 - y0)) (Z.abs (x1 - x0)) fg) as L.
    rewrite !sgn_abs in L.
    replace (y0 + (y1 - y0)) with y1 in L by ring.
    replace (x0 + (x1 - x0)) with x1 in L by ring.
    specialize (L ltac:(destruct (sgn_cases (y1 - y0)); lia)
                  ltac:(destruct (sgn_cases (x1 - x0)); lia)
                  ltac:(lia) Hy0 Hy1 Hx0 Hx1
                  (Z.to_nat (Z.abs (y1 - y0))) 0 fuel w ltac:(lia) ltac:(lia) Hfuel).
    unfold bres_error in L. rewrite bres_0 in L by lia.
    refine (eq_trans _ L). f_equal; ring.
  - rewrite !step_fits by lia. cbv beta iota zeta.
    rewrite Z.max_l in * by lia.
    rewrite (int_fits bits Hbits (2 * Z.abs (x1 - x0))) by lia.
    rewrite (int_fits bits Hbits (2 * Z.abs (y1 - y0))) by lia.
    rewrite !int_fits by lia.
    pose proof (line_loop_walk bits Hbits false x0 y0 (sgn (x1 - x0)) (sgn (y1 - y0))
                  (Z.abs (x1 - x0)) (Z.abs (y1 - y0)) fg) as L.
    rewrite !sgn_abs in L.
    replace (y0 + (y1 - y0)) with y1 in L by ring.
    replace (x0 + (x1 - x0)) with x1 in L by ring.
    specialize (L ltac:(destruct (sgn_cases (x1 - x0)); lia)
                  ltac:(destruct (sgn_cases (y1 - y0)); lia)
                  ltac:(lia) Hx0 Hx1 Hy0 Hy1
                  (Z.to_nat (Z.abs (x1 - x0))) 0 fuel w ltac:(lia) ltac:(lia) Hfuel).
    unfold bres_error in L. rewrite bres_0 in L by lia.
    refine (eq_trans _ L). f_equal; ring.
Qed.

End LineDraw.

(* ================================================================== *)
(** * Properties of the pixels of a line *)
(* ================================================================== *)

Lemma line_pixels_length a b :
  length (line_pixels a b) = Z.to_nat (line_major a b).
Proof. unfold line_pixels. rewrite length_map, steps_length. reflexivity. Qed.

Lemma in_line_pixels a b p :
  In p (line_pixels a b) <->
  exists i, 0 <= i < line_major a b /\ p = line_pixel a b i.
Proof.
  unfold line_pixels. rewrite in_map_iff. split.
  - intros (i & <- & Hi). apply in_steps in Hi. exists i. split; [lia|reflexivity].
  - intros (i & Hi & ->). exists i. split; [reflexivity|]. apply in_steps. lia.
Qed.

Lemma line_major_sym a b : line_major b a = line_major a b.
Proof. unfold line_major. lia. Qed.

Lemma line_minor_sym a b : line_minor b a = line_minor a b.
Proof. unfold line_minor. lia. Qed.

Lemma line_minor_le_major a b : 0 <= line_minor a b <= line_major a b.
Proof. unfold line_minor, line_major. lia. Qed.

(** Step 0 is the start point. *)
Lemma line_pixel_0 a b : line_pixel a b 0 = a.
Proof.
  destruct a as [x0 y0], b as [x1 y1]. unfold line_pixel, walk_pixel.
  cbn [xy_x xy_y].
  destruct (Z.leb_spec (Z.abs (x1 - x0)) (Z.abs (y1 - y0)));
    rewrite bres_0 by lia; f_equal; ring.
Qed.

(** Without a tie the minor advances of the two directions add up. *)
Lemma bres_reverse n m i :
  0 < i < n -> 0 <= m <= n ->
  (2 * i * m + n) mod (2 * n) <> 0 ->
  bres n m i + bres n m (n - i) = m.
Proof.
  intros Hi Hm Htie.
  assert (Hn : 0 < n) by lia.
  pose proof (bres_bounds n m i Hn) as H1.
  pose proof (bres_bounds n m (n - i) Hn) as H2.
  set (q := bres n m i) in *. set (q' := bres n m (n - i)) in *.
  assert (Hle : q + q' <= m) by nia.
  assert (Hge : m - 1 <= q + q') by nia.
  destruct (Z.eq_dec (q + q') m) as [|Hne]; [assumption|].
  exfalso. apply Htie.
  assert (Heq : 2 * i * m + n = (q + 1) * (2 * n)) by nia.
  rewrite Heq. apply Z_mod_mult.
Qed.

(** The pixel of step [i] of a tie-free line is the pixel of step
    [n - i] of the line walked the other way. *)
Lemma line_pixel_reverse a b i :
  tie_free a b -> 0 < i < line_major a b ->
  line_pixel a b i = line_pixel b a (line_major a b - i).
Proof.
  intros Htie Hi. specialize (Htie i Hi). revert Htie Hi.
  destruct a as [x0 y0], b as [x1 y1].
  unfold line_pixel, walk_pixel, line_major, line_minor. cbn [xy_x xy_y].
  replace (Z.abs (x0 - x1)) with (Z.abs (x1 - x0)) by lia.
  replace (Z.abs (y0 - y1)) with (Z.abs (y1 - y0)) by lia.
  destruct (Z.leb_spec (Z.abs (x1 - x0)) (Z.abs (y1 - y0))) as [Hst|Hst].
  - rewrite Z.max_r, Z.min_l by lia. intros Htie Hi.
    pose proof (bres_reverse (Z.abs (y1 - y0)) (Z.abs (x1 - x0)) i Hi ltac:(lia) Htie) as Hrev.
    destruct (sgn_cases (x1 - x0)) as [[-> ?]|[-> ?]];
      destruct (sgn_cases (x0 - x1)) as [[-> ?]|[-> ?]];
      destruct (sgn_cases (y1 - y0)) as [[-> ?]|[-> ?]];
      destruct (sgn_cases (y0 - y1)) as [[-> ?]|[-> ?]];
      f_equal; try lia.
    all: assert (x1 - x0 = 0) by lia.
    all: replace (Z.abs (x1 - x0)) with 0 in * by lia.
    all: pose proof (bres_range (Z.abs (y1 - y0)) 0 i
                       ltac:(lia) ltac:(lia) ltac:(lia)).
    all: pose proof (bres_range (Z.abs (y1 - y0)) 0 (Z.abs (y1 - y0) - i)
                       ltac:(lia) ltac:(lia) ltac:(lia)).
    all: lia.
  - rewrite Z.max_l, Z.min_r by lia. intros Htie Hi.
    pose proof (bres_reverse (Z.abs (x1 - x0)) (Z.abs (y1 - y0)) i Hi ltac:(lia) Htie) as Hrev.
    destruct (sgn_cases (x1 - x0)) as [[-> ?]|[-> ?]];
      destruct (sgn_cases (x0 - x1)) as [[-> ?]|[-> ?]];
      destruct (sgn_cases (y1 - y0)) as [[-> ?]|[-> ?]];
      destruct (sgn_cases (y0 - y1)) as [[-> ?]|[-> ?]];
      f_equal; try lia.
    all: assert (y1 - y0 = 0) by lia.
    all: replace (Z.abs (y1 - y0)) with 0 in * by lia.
    all: pose proof (bres_range (Z.abs (x1 - x0)) 0 i
                       ltac:(lia) ltac:(lia) ltac:(lia)).
    all: pose proof (bres_range (Z.abs (x1 - x0)) 0 (Z.abs (x1 - x0) - i)
                       ltac:(lia) ltac:(lia) ltac:(lia)).
    all: lia.
Qed.

Lemma tie_free_sym a b : tie_free a b -> tie_free b a.
Proof.
  unfold tie_free. intros Htie i.
  rewrite (line_major_sym a b), (line_minor_sym a b). apply Htie.
Qed.

(** The pixels of a tie-free line together with its end point are those of
    the opposite line together with its own end point. *)
Lemma line_pixels_reverse_incl a b p :
  tie_free a b ->
  In p (b :: line_pixels a b) -> In p (a :: line_pixels b a).
Proof.
  intros Htie [<-|Hin].
  - destruct (Z.eq_dec (line_major a b) 0) as [Hz|Hnz].
    + left. destruct a, b. unfold line_major in Hz. cbn [xy_x xy_y] in Hz.
      f_equal; lia.
    + right. apply in_line_pixels. exists 0. rewrite line_pixel_0.
      rewrite line_major_sym. pose proof (line_minor_le_major a b).
      split; [lia|reflexivity].
  - apply in_line_pixels in Hin. destruct Hin as (i & Hi & ->).
    destruct (Z.eq_dec i 0) as [->|Hnz].
    + left. symmetry. apply line_pixel_0.
    + right. apply in_line_pixels. exists (line_major a b - i).
      rewrite (line_major_sym a b). split; [lia|].
      apply line_pixel_reverse; [assumption|lia].
Qed.

(* ================================================================== *)
(** * Fuel: more fuel does not change a result *)
(* ================================================================== *)

Lemma line_draw_loop_mono {color} bits steep x1 xstep ystep TwoDy TwoDyTwoDx (fg : color) :
  forall (fuel fuel' : nat) x y E (w w' : window color),
    line.draw_loop bits fuel steep x1 xstep ystep TwoDy TwoDyTwoDx fg x y E w = Some w' ->
    (fuel <= fuel')%nat ->
    line.draw_loop bits fuel' steep x1 xstep ystep TwoDy TwoDyTwoDx fg x y E w = Some w'.
Proof.
  induction fuel as [|fuel IH]; intros fuel' x y E w w' Hrun Hle.
  - cbn [line.draw_loop] in Hrun.
    destruct fuel'; cbn [line.draw_loop]; destruct (x =? x1); congruence.
  - destruct fuel' as [|fuel']; [lia|].
    cbn [line.draw_loop] in *.
    destruct (x =? x1); [assumption|].
    destruct steep; destruct (0 <? E); apply IH; (assumption || lia).
Qed.

Lemma line_draw_mono {color} bits (fuel fuel' : nat) (l : line.t) (w w' : window color) :
  line.draw bits fuel l w = Some w' -> (fuel <= fuel')%nat ->
  line.draw bits fuel' l w = Some w'.
Proof.
  unfold line.draw.
  repeat match goal with
         | |- context [let '(_, _) := ?e in _] => destruct e
         | |- context [if ?c then _ else _] => destruct c
         end;
    apply line_draw_loop_mono.
Qed.

(** Whatever the fuel, a line inside the coordinate range that is drawn
    to the end has appended the Bresenham walk. *)
Lemma line_draw_result {color} `{Color color} bits (fuel : nat) (l : line.t)
    (w w' : window color) :
  16 <= bits ->
  line_fits bits (line.start l) (line.end_ l) ->
  line.draw bits fuel l w = Some w' ->
  w' = w ++ paint (line.fg l) (line_pixels (line.start l) (line.end_ l)).
Proof.
  intros Hb Hfits Hrun.
  set (n := Z.to_nat (line_major (line.start l) (line.end_ l))).
  apply line_draw_mono with (fuel' := Nat.max fuel n) in Hrun; [|lia].
  rewrite (line_draw_walk bits Hb) in Hrun by (assumption || lia).
  congruence.
Qed.

(* ================================================================== *)
(** * Ties: where the two directions of a line differ *)
(* ================================================================== *)

(** At a tie the minor advances of the two directions fall one short. *)
Lemma bres_tie n m i :
  0 < i < n -> 0 <= m <= n ->
  (2 * i * m + n) mod (2 * n) = 0 ->
  bres n m i + bres n m (n - i) = m - 1.
Proof.
  intros Hi Hm Htie.
  assert (Hn : 0 < n) by lia.
  apply Z.mod_divide in Htie; [|lia]. destruct Htie as (t & Ht).
  assert (H1 : bres n m i = t - 1) by (apply bres_unique; nia).
  assert (H2 : bres n m (n - i) = m - t) by (apply bres_unique; nia).
  lia.
Qed.

(** A pixel written at a tie is not written in the other direction. *)
Lemma line_pixel_tie a b i :
  0 < i < line_major a b ->
  (2 * i * line_minor a b + line_major a b) mod (2 * line_major a b) = 0 ->
  ~ In (line_pixel a b i) (a :: line_pixels b a).
Proof.
  intros Hi Htie Hin.
  assert (Hm : 0 < line_minor a b).
  { pose proof (line_minor_le_major a b) as Hle.
    destruct (Z.eq_dec (line_minor a b) 0) as [Hz|]; [|lia].
    rewrite Hz, Z.mul_0_r, Z.add_0_l in Htie.
    rewrite Z.mod_small in Htie by lia. lia. }
  assert (Hother : exists k, 0 <= k < line_major a b /\
                             line_pixel a b i = line_pixel b a k).
  { destruct Hin as [Heq|Hin].
    - (* an inner step is never the start point: it has moved on the
         major axis *)
      exfalso. revert Heq Hi. destruct a as [x0 y0], b as [x1 y1].
      unfold line_pixel, walk_pixel, line_major. cbn [xy_x xy_y].
      destruct (Z.leb_spec (Z.abs (x1 - x0)) (Z.abs (y1 - y0)));
        intros Heq Hi; injection Heq as Hx Hy.
      + destruct (sgn_cases (y1 - y0)) as [[Hs ?]|[Hs ?]]; rewrite Hs in Hy; lia.
      + destruct (sgn_cases (x1 - x0)) as [[Hs ?]|[Hs ?]]; rewrite Hs in Hx; lia.
    - apply in_line_pixels in Hin. rewrite line_major_sym in Hin.
      destruct Hin as (k & Hk & Heq). exists k. split; assumption. }
  destruct Hother as (k & Hk & Heq).
  revert Hi Htie Hm Hk Heq.
  destruct a as [x0 y0], b as [x1 y1].
  unfold line_pixel, walk_pixel, line_major, line_minor. cbn [xy_x xy_y].
  replace (Z.abs (x0 - x1)) with (Z.abs (x1 - x0)) by lia.
  replace (Z.abs (y0 - y1)) with (Z.abs (y1 - y0)) by lia.
  destruct (Z.leb_spec (Z.abs (x1 - x0)) (Z.abs (y1 - y0))) as [Hst|Hst].
  - rewrite Z.max_r, Z.min_l by lia. intros Hi Htie Hm Hk Heq.
    pose proof (bres_tie (Z.abs (y1 - y0)) (Z.abs (x1 - x0)) i Hi ltac:(lia) Htie)
      as Hsum.
    injection Heq as Hx Hy.
    assert (k = Z.abs (y1 - y0) - i).
    { destruct (sgn_cases (y1 - y0)) as [[Hs ?]|[Hs ?]];
        destruct (sgn_cases (y0 - y1)) as [[Hs' ?]|[Hs' ?]];
        rewrite Hs, Hs' in Hy; lia. }
    subst k.
    destruct (sgn_cases (x1 - x0)) as [[Hs ?]|[Hs ?]];
      destruct (sgn_cases (x0 - x1)) as [[Hs' ?]|[Hs' ?]];
      rewrite Hs, Hs' in Hx; lia.
  - rewrite Z.max_l, Z.min_r by lia. intros Hi Htie Hm Hk Heq.
    pose proof (bres_tie (Z.abs (x1 - x0)) (Z.abs (y1 - y0)) i Hi ltac:(lia) Htie)
      as Hsum.
    injection Heq as Hx Hy.
    assert (k = Z.abs (x1 - x0) - i).
    { destruct (sgn_cases (x1 - x0)) as [[Hs ?]|[Hs ?]];
        destruct (sgn_cases (x0 - x1)) as [[Hs' ?]|[Hs' ?]];
        rewrite Hs, Hs' in Hx; lia. }
    subst k.
    destruct (sgn_cases (y1 - y0)) as [[Hs ?]|[Hs ?]];
      destruct (sgn_cases (y0 - y1)) as [[Hs' ?]|[Hs' ?]];
      rewrite Hs, Hs' in Hy; lia.
Qed.

(** The two directions write the same pixels, end points added, exactly
    when the line is tie-free. *)
Lemma line_pixels_reverse_iff a b :
  (forall p, In p (b :: line_pixels a b) <-> In p (a :: line_pixels b a))
  <-> tie_free a b.
Proof.
  split.
  - intros Hsame i Hi Htie.
    apply (line_pixel_tie a b i Hi Htie). apply Hsame. right.
    apply in_line_pixels. exists i. split; [lia|reflexivity].
  - intros Htie p. split.
    + apply line_pixels_reverse_incl. assumption.
    + apply line_pixels_reverse_incl. apply tie_free_sym. assumption.
Qed.

(* ================================================================== *)
(** * Which pixel a direction takes *)
(* ================================================================== *)

(** Step [n] of the closed form is the end point (which the code does not
    write: its last step is [n - 1]). *)
Lemma line_pixel_end a b : line_pixel a b (line_major a b) = b.
Proof.
  destruct (Z.eq_dec (line_major a b) 0) as [Hz|Hnz].
  - rewrite Hz, line_pixel_0. destruct a, b. unfold line_major in Hz.
    cbn [xy_x xy_y] in Hz. f_equal; lia.
  - revert Hnz. destruct a as [x0 y0], b as [x1 y1].
    unfold line_major, line_pixel, walk_pixel. cbn [xy_x xy_y]. intros Hnz.
    destruct (Z.leb_spec (Z.abs (x1 - x0)) (Z.abs (y1 - y0))).
    + rewrite Z.max_r by lia. rewrite bres_end by lia.
      rewrite !sgn_abs. f_equal; ring.
    + rewrite Z.max_l by lia. rewrite bres_end by lia.
      rewrite !sgn_abs. f_equal; ring.
Qed.

(** Two steps of a line are the same pixel only if they are the same
    step. *)
Lemma line_pixel_inj a b i j :
  line_pixel a b i = line_pixel a b j -> i = j.
Proof.
  destruct a as [x0 y0], b as [x1 y1].
  unfold line_pixel, walk_pixel. cbn [xy_x xy_y].
  destruct (Z.leb_spec (Z.abs (x1 - x0)) (Z.abs (y1 - y0)));
    intros Heq; injection Heq as Hx Hy.
  - destruct (sgn_cases (y1 - y0)) as [[Hs ?]|[Hs ?]]; rewrite Hs in Hy; lia.
  - destruct (sgn_cases (x1 - x0)) as [[Hs ?]|[Hs ?]]; rewrite Hs in Hx; lia.
Qed.

(** A line that is not a single point writes its start point and does not
    write its end point. *)
Lemma line_pixels_start_end a b :
  a <> b -> In a (line_pixels a b) /\ ~ In b (line_pixels a b).
Proof.
  intros Hab.
  assert (Hn : 0 < line_major a b).
  { destruct (Z_lt_le_dec 0 (line_major a b)) as [Hlt|Hle]; [assumption|].
    exfalso. apply Hab. destruct a, b. unfold line_major in Hle.
    cbn [xy_x xy_y] in Hle. f_equal; lia. }
  split.
  - apply in_line_pixels. exists 0. split; [lia|].
    symmetry. apply line_pixel_0.
  - intros Hin. apply in_line_pixels in Hin. destruct Hin as (i & Hi & Heq).
    rewrite <- (line_pixel_end a b) in Heq at 1.
    apply line_pixel_inj in Heq. lia.
Qed.

(** Every step takes the pixel nearest to the ideal line, and of two
    pixels as near the one towards the start. *)
Lemma line_pixel_rounded a b i :
  0 <= i < line_major a b -> rounded_to_start a b (line_pixel a b i).
Proof.
  destruct a as [x0 y0], b as [x1 y1].
  unfold rounded_to_start, along, across, line_pixel, walk_pixel,
    line_major, line_minor.
  cbn [xy_x xy_y].
  destruct (Z.leb_spec (Z.abs (x1 - x0)) (Z.abs (y1 - y0))) as [Hst|Hst];
    cbn [xy_x xy_y].
  - rewrite Z.max_r, Z.min_l by lia. intros Hi.
    pose proof (bres_bounds (Z.abs (y1 - y0)) (Z.abs (x1 - x0)) i ltac:(lia))
      as Hbnd.
    set (s := bres (Z.abs (y1 - y0)) (Z.abs (x1 - x0)) i) in *.
    replace (sgn (y1 - y0) * (y0 + sgn (y1 - y0) * i - y0)) with i
      by (destruct (sgn_cases (y1 - y0)) as [[-> ?]|[-> ?]]; ring).
    replace (sgn (x1 - x0) * (x0 + sgn (x1 - x0) * s - x0)) with s
      by (destruct (sgn_cases (x1 - x0)) as [[-> ?]|[-> ?]]; ring).
    lia.
  - rewrite Z.max_l, Z.min_r by lia. intros Hi.
    pose proof (bres_bounds (Z.abs (x1 - x0)) (Z.abs (y1 - y0)) i ltac:(lia))
      as Hbnd.
    set (s := bres (Z.abs (x1 - x0)) (Z.abs (y1 - y0)) i) in *.
    replace (sgn (x1 - x0) * (x0 + sgn (x1 - x0) * i - x0)) with i
      by (destruct (sgn_cases (x1 - x0)) as [[-> ?]|[-> ?]]; ring).
    replace (sgn (y1 - y0) * (y0 + sgn (y1 - y0) * s - y0)) with s
      by (destruct (sgn_cases (y1 - y0)) as [[-> ?]|[-> ?]]; ring).
    lia.
Qed.

Lemma line_pixels_rounded a b p :
  In p (line_pixels a b) -> rounded_to_start a b p.
Proof.
  intros Hin. apply in_line_pixels in Hin. destruct Hin as (i & Hi & ->).
  apply line_pixel_rounded. assumption.
Qed.

(** Lines that never pass half-way between two pixels: the horizontal, the
    vertical and the 45 degree ones, and those of an odd longer extent. *)
Lemma tie_free_when a b :
  xy_x a = xy_x b \/ xy_y a = xy_y b \/
  Z.abs (xy_x b - xy_x a) = Z.abs (xy_y b - xy_y a) \/
  Z.odd (line_major a b) = true ->
  tie_free a b.
Proof.
  intros Hc i Hi Htie.
  apply Z.mod_divide in Htie; [|lia]. destruct Htie as (t & Ht).
  destruct Hc as [Hx|[Hy|[Hd|Ho]]].
  - assert (Hm : line_minor a b = 0) by (unfold line_minor; lia).
    rewrite Hm in Ht.
    assert (Hc : line_major a b * (1 - 2 * t) = 0) by lia.
    apply Z.mul_eq_0 in Hc. lia.
  - assert (Hm : line_minor a b = 0) by (unfold line_minor; lia).
    rewrite Hm in Ht.
    assert (Hc : line_major a b * (1 - 2 * t) = 0) by lia.
    apply Z.mul_eq_0 in Hc. lia.
  - assert (Hm : line_minor a b = line_major a b)
      by (unfold line_minor, line_major; lia).
    rewrite Hm in Ht.
    assert (Hc : line_major a b * (2 * i + 1 - 2 * t) = 0) by lia.
    apply Z.mul_eq_0 in Hc. lia.
  - rewrite Z.odd_spec in Ho. destruct Ho as (k & Hk). lia.
Qed.

(* ================================================================== *)
(** * The midpoint walk: arithmetic *)
(* ================================================================== *)

Lemma midpoint_start r : midpoint r 0 r = 1 - r.
Proof. unfold midpoint. ring. Qed.

Lemma midpoint_keep r x y :
  midpoint r (x + 1) y = midpoint r x y + (2 * (x + 1) + 1).
Proof. unfold midpoint. ring. Qed.

Lemma midpoint_down r x y :
  midpoint r (x + 1) (y - 1) = midpoint r x y + - 2 * (y - 1) + (2 * (x + 1) + 1).
Proof. unfold midpoint. ring. Qed.

Lemma walk_inv_start r : 0 <= r -> walk_inv r 0 r.
Proof.
  intros Hr. unfold walk_inv. rewrite midpoint_start. nia.
Qed.

Lemma walk_inv_step r x y :
  walk_inv r x y -> x < y -> walk_inv r (x + 1) (next_y r x y).
Proof.
  unfold walk_inv, next_y. intros (Hx & Hy & Hxr & HF & HF' & HI) Hlt.
  specialize (HF' Hlt).
  destruct (Z.leb_spec 0 (midpoint r x y)) as [Hpos|Hneg].
  - rewrite midpoint_down.
    assert (r * r <= (x + 1) * (x + 1) + (y - 1 + 1) * (y - 1 + 1))
      by (unfold midpoint in Hpos; nia).
    repeat split; try lia.
  - rewrite midpoint_keep.
    assert (r * r <= (x + 1) * (x + 1) + (y + 1) * (y + 1)) by nia.
    repeat split; try lia.
Qed.

Lemma octant_S n r x y :
  octant (S n) r x y
  = if x <? y then (x + 1, next_y r x y) :: octant n r (x + 1) (next_y r x y)
    else [].
Proof. reflexivity. Qed.

(** Every round of the walk satisfies the invariant. *)
Lemma octant_inv n r :
  forall x y p,
    walk_inv r x y -> In p (octant n r x y) ->
    walk_inv r (fst p) (snd p) /\ x < fst p.
Proof.
  induction n as [|n IH]; intros x y p Hinv Hin; [destruct Hin|].
  rewrite octant_S in Hin. destruct (Z.ltb_spec x y) as [Hlt|]; [|destruct Hin].
  pose proof (walk_inv_step r x y Hinv Hlt) as Hnext.
  destruct Hin as [<-|Hin].
  - cbn [fst snd]. split; [assumption|lia].
  - destruct (IH _ _ _ Hnext Hin). split; [assumption|lia].
Qed.

(** The walk makes at most [y - x] rounds. *)
Lemma octant_length n r :
  forall x y, x <= y + 1 -> Z.of_nat (length (octant n r x y)) <= Z.max 0 (y - x).
Proof.
  induction n as [|n IH]; intros x y Hxy; [simpl; lia|].
  rewrite octant_S. destruct (Z.ltb_spec x y) as [Hlt|]; [|simpl; lia].
  cbn [length]. specialize (IH (x + 1) (next_y r x y)).
  unfold next_y in *. destruct (0 <=? midpoint r x y); lia.
Qed.

(* ================================================================== *)
(** * [circle::draw] writes the midpoint walk *)
(* ================================================================== *)

Lemma write_app {color} (w : window color) p col ws :
  write w p col ++ ws = w ++ (p, col) :: ws.
Proof. unfold write. rewrite <- app_assoc. reflexivity. Qed.

Section CircleDraw.
Context {color : Type} `{Color color}.
Variable bits : Z.
Hypothesis Hbits : 16 <= bits.
Variable c : circle.t (color := color).
Hypothesis Hfits : circle_fits bits c.

Lemma radius_small : 0 <= circle.radius c < 2 ^ (bits - 3).
Proof. unfold circle_fits, coord_ok in Hfits. lia. Qed.

Lemma offset_int t :
  - (2 * circle.radius c) - 4 <= t <= 2 * circle.radius c + 4 ->
  int_fast16_t bits t = t.
Proof.
  intros Ht. pose proof radius_small.
  destruct (pow_split bits Hbits) as (P & HP & H3 & _).
  apply (int_fits bits Hbits). lia.
Qed.

Lemma xy_add_shift dx dy :
  - circle.radius c <= dx <= circle.radius c ->
  - circle.radius c <= dy <= circle.radius c ->
  xy_add bits (circle.start c) (mk_xy dx dy) = shift (circle.start c) dx dy.
Proof.
  intros Hdx Hdy. unfold xy_add, shift. cbn [xy_x xy_y].
  unfold circle_fits, coord_ok in Hfits.
  rewrite !(int_fits bits Hbits) by lia. reflexivity.
Qed.

Lemma xy_sub_shift dx dy :
  - circle.radius c <= dx <= circle.radius c ->
  - circle.radius c <= dy <= circle.radius c ->
  xy_sub bits (circle.start c) (mk_xy dx dy) = shift (circle.start c) (- dx) (- dy).
Proof.
  intros Hdx Hdy. unfold xy_sub, shift. cbn [xy_x xy_y].
  unfold circle_fits, coord_ok in Hfits.
  rewrite !(int_fits bits Hbits) by lia. f_equal; ring.
Qed.

Lemma shift_line_fits dx dy dx' dy' :
  - circle.radius c <= dx <= circle.radius c ->
  - circle.radius c <= dy <= circle.radius c ->
  - circle.radius c <= dx' <= circle.radius c ->
  - circle.radius c <= dy' <= circle.radius c ->
  line_fits bits (shift (circle.start c) dx dy) (shift (circle.start c) dx' dy').
Proof.
  intros. unfold line_fits, shift, coord_ok. cbn [xy_x xy_y].
  unfold circle_fits, coord_ok in Hfits. lia.
Qed.

Lemma shift_line_major dx dy dx' dy' :
  line_major (shift (circle.start c) dx dy) (shift (circle.start c) dx' dy')
  = Z.max (Z.abs (dx' - dx)) (Z.abs (dy' - dy)).
Proof. unfold line_major, shift. cbn [xy_x xy_y]. lia. Qed.

(** The eight writes of a round. *)
Lemma write_octants_walk x y (w : window color) :
  0 <= x <= circle.radius c -> 0 <= y <= circle.radius c ->
  circle.write_octants bits c x y w
  = w ++ paint (circle.fg c) (octant_pixels (circle.start c) x y).
Proof.
  intros Hx Hy. unfold circle.write_octants.
  rewrite !offset_int by lia.
  rewrite !xy_add_shift by lia.
  unfold write, octant_pixels, paint. cbn [map].
  rewrite <- !app_assoc. reflexivity.
Qed.

(** A chord of a round, or the diameter. *)
Lemma chord_walk (fuel : nat) dx dy dx' dy' (col : color) (w : window color) :
  - circle.radius c <= dx <= circle.radius c ->
  - circle.radius c <= dy <= circle.radius c ->
  - circle.radius c <= dx' <= circle.radius c ->
  - circle.radius c <= dy' <= circle.radius c ->
  (Z.to_nat (2 * circle.radius c) <= fuel)%nat ->
  line.draw bits fuel
    (line.make (shift (circle.start c) dx dy) (shift (circle.start c) dx' dy') col) w
  = Some (w ++ paint col (line_pixels (shift (circle.start c) dx dy)
                                      (shift (circle.start c) dx' dy'))).
Proof.
  intros Hdx Hdy Hdx' Hdy' Hfuel.
  apply (line_draw_walk bits Hbits fuel
           (line.make (shift (circle.start c) dx dy)
                      (shift (circle.start c) dx' dy') col) w).
  - apply shift_line_fits; assumption.
  - cbn [line.start line.end_]. rewrite shift_line_major. lia.
Qed.

(** The four chords of a round. *)
Lemma draw_chords_walk (fuel : nat) x y (w : window color) :
  0 <= x <= circle.radius c -> 0 <= y <= circle.radius c ->
  (Z.to_nat (2 * circle.radius c) <= fuel)%nat ->
  circle.draw_chords bits fuel c x y w
  = Some (w ++ paint (circle.bg c) (chord_pixels (circle.start c) x y)).
Proof.
  intros Hx Hy Hfuel. unfold circle.draw_chords.
  rewrite !offset_int by lia.
  rewrite !xy_add_shift by lia.
  rewrite chord_walk by (assumption || lia). cbn [bind].
  rewrite chord_walk by (assumption || lia). cbn [bind].
  rewrite chord_walk by (assumption || lia). cbn [bind].
  rewrite chord_walk by (assumption || lia).
  unfold chord_pixels. rewrite !paint_app, <- !app_assoc. reflexivity.
Qed.

(** The octant loop, started in a state the invariant allows, writes the
    rounds of the walk. *)
Lemma circle_loop_walk (line_fuel : nat) :
  (Z.to_nat (2 * circle.radius c) <= line_fuel)%nat ->
  forall (n : nat) x y (fuel : nat) (w : window color),
    walk_inv (circle.radius c) x y ->
    y - x <= Z.of_nat n -> (n <= fuel)%nat ->
    circle.draw_loop bits line_fuel fuel c
      (midpoint (circle.radius c) x y) (2 * x + 1) (- 2 * y) x y w
    = Some (w ++ flat_map (round_writes c) (octant n (circle.radius c) x y)).
Proof.
  intros Hline. set (r := circle.radius c) in *.
  assert (Hdone : forall n x y fuel (w : window color),
             y <= x ->
             circle.draw_loop bits line_fuel fuel c
               (midpoint r x y) (2 * x + 1) (- 2 * y) x y w
             = Some (w ++ flat_map (round_writes c) (octant n r x y))).
  { intros n x y fuel w Hle.
    assert (Hno : (x <? y) = false) by (apply Z.ltb_ge; assumption).
    destruct n; [|rewrite octant_S, Hno];
      (destruct fuel; cbn [circle.draw_loop flat_map]; rewrite Hno, app_nil_r;
       reflexivity). }
  induction n as [|n IH]; intros x y fuel w Hinv Hn Hfuel.
  - apply Hdone. lia.
  - destruct (Z_lt_le_dec x y) as [Hlt|Hge]; [|apply Hdone; assumption].
    destruct fuel as [|fuel]; [lia|].
    pose proof (walk_inv_step r x y Hinv Hlt) as Hnext.
    rewrite octant_S. cbn [circle.draw_loop].
    assert (Hyes : (x <? y) = true) by (apply Z.ltb_lt; assumption).
    rewrite Hyes. cbn [flat_map].
    assert (Hstate :
      (if 0 <=? midpoint r x y
       then (int_fast16_t bits (y - 1), int_fast16_t bits (- 2 * y + 2),
             int_fast16_t bits (midpoint r x y + int_fast16_t bits (- 2 * y + 2)))
       else (y, - 2 * y, midpoint r x y))
      = (next_y r x y, - 2 * next_y r x y,
         midpoint r (x + 1) (next_y r x y) - (2 * (x + 1) + 1))).
    { unfold walk_inv, next_y in *.
      destruct Hinv as (Hx & Hy & Hxr & HF & HF' & _). specialize (HF' Hlt).
      destruct (Z.leb_spec 0 (midpoint r x y)).
      - rewrite midpoint_down. rewrite !offset_int by (fold r; lia).
        f_equal; [f_equal|]; ring.
      - rewrite midpoint_keep. f_equal; ring. }
    rewrite Hstate.
    assert (Hx1 : int_fast16_t bits (x + 1) = x + 1).
    { unfold walk_inv in Hinv. apply offset_int. fold r. lia. }
    assert (Hdd : int_fast16_t bits (2 * x + 1 + 2) = 2 * (x + 1) + 1).
    { unfold walk_inv in Hinv. rewrite offset_int by (fold r; lia). ring. }
    assert (Hfx : int_fast16_t bits
                    (midpoint r (x + 1) (next_y r x y) - (2 * (x + 1) + 1)
                     + (2 * (x + 1) + 1))
                  = midpoint r (x + 1) (next_y r x y)).
    { unfold walk_inv in Hnext. rewrite offset_int by (fold r; lia). ring. }
    rewrite Hx1, Hdd, Hfx.
    assert (Hxr : 0 <= x + 1 <= r) by (unfold walk_inv in Hnext; lia).
    assert (Hyr : 0 <= next_y r x y <= r) by (unfold walk_inv in Hnext; lia).
    rewrite write_octants_walk by assumption.
    unfold round_writes at 1. cbn [fst snd].
    destruct (color_neq (circle.bg c) transparent).
    + rewrite draw_chords_walk by assumption. cbn [bind].
      rewrite (IH (x + 1) (next_y r x y) fuel); [| assumption | | lia].
      * rewrite <- !app_assoc. reflexivity.
      * unfold next_y. destruct (0 <=? midpoint r x y); lia.
    + cbn [bind].
      rewrite (IH (x + 1) (next_y r x y) fuel); [| assumption | | lia].
      * rewrite app_nil_r, <- !app_assoc. reflexivity.
      * unfold next_y. destruct (0 <=? midpoint r x y); lia.
Qed.

End CircleDraw.

(** Inside the coordinate range [circle::draw] appends the writes of the
    midpoint walk. *)
Lemma circle_draw_walk {color} `{Color color} bits (fuel : nat)
    (c : circle.t) (w : window color) :
  16 <= bits -> circle_fits bits c ->
  (Z.to_nat (2 * circle.radius c) <= fuel)%nat ->
  circle.draw bits fuel c w = Some (w ++ circle_writes c).
Proof.
  intros Hb Hfits Hfuel. unfold circle.draw, circle_writes.
  destruct (Z.ltb_spec (circle.radius c) 1) as [Hr|Hr].
  - rewrite app_nil_r. reflexivity.
  - pose proof (radius_small bits Hb c Hfits) as Hsmall.
    rewrite !int_uint by assumption.
    rewrite int_uint_mul_l.
    rewrite !(offset_int bits Hb c Hfits) by lia.
    rewrite !(xy_add_shift bits Hb c Hfits) by lia.
    rewrite (xy_sub_shift bits Hb c Hfits) by lia.
    change (- 0) with 0.
    assert (Hloop : forall w0 : window color,
              circle.draw_loop bits fuel fuel c (1 - circle.radius c) 1
                (-2 * circle.radius c) 0 (circle.radius c) w0
              = Some (w0 ++ flat_map (round_writes c) (rounds (circle.radius c)))).
    { intros w0.
      pose proof (circle_loop_walk bits Hb c Hfits fuel Hfuel
                    (Z.to_nat (circle.radius c)) 0 (circle.radius c) fuel w0
                    (walk_inv_start (circle.radius c) ltac:(lia)) ltac:(lia) ltac:(lia)) as L.
      rewrite midpoint_start in L. exact L. }
    unfold head_writes.
    destruct (color_neq (circle.bg c) transparent).
    + rewrite (chord_walk bits Hb c Hfits) by (assumption || lia).
      cbn [bind]. rewrite Hloop.
      unfold write, axis_pixels. rewrite !paint_app.
      cbn [paint map app]. rewrite <- !app_assoc. reflexivity.
    + cbn [bind]. rewrite Hloop.
      unfold write, axis_pixels. cbn [paint map app].
      rewrite <- !app_assoc. reflexivity.
Qed.

(* ================================================================== *)
(** * Fuel: more fuel does not change the result of a circle *)
(* ================================================================== *)

Lemma bind_some {A B} (m : option A) (k : A -> option B) b :
  bind m k = Some b -> exists a, m = Some a /\ k a = Some b.
Proof. destruct m as [a|]; [|discriminate]. intros Hk. exists a. tauto. Qed.

Lemma draw_chords_mono {color} `{Color color} bits (fuel fuel' : nat)
    (c : circle.t) x y (w w' : window color) :
  circle.draw_chords bits fuel c x y w = Some w' -> (fuel <= fuel')%nat ->
  circle.draw_chords bits fuel' c x y w = Some w'.
Proof.
  unfold circle.draw_chords. intros Hrun Hle.
  apply bind_some in Hrun. destruct Hrun as (w1 & H1 & Hrun).
  apply bind_some in Hrun. destruct Hrun as (w2 & H2 & Hrun).
  apply bind_some in Hrun. destruct Hrun as (w3 & H3 & Hrun).
  rewrite (line_draw_mono _ _ fuel' _ _ _ H1 Hle). cbn [bind].
  rewrite (line_draw_mono _ _ fuel' _ _ _ H2 Hle). cbn [bind].
  rewrite (line_draw_mono _ _ fuel' _ _ _ H3 Hle). cbn [bind].
  apply (line_draw_mono _ _ fuel' _ _ _ Hrun Hle).
Qed.

Lemma circle_draw_loop_mono {color} `{Color color} bits (c : circle.t)
    (line_fuel line_fuel' : nat) :
  (line_fuel <= line_fuel')%nat ->
  forall (fuel fuel' : nat) fx ddFx ddFy x y (w w' : window color),
    circle.draw_loop bits line_fuel fuel c fx ddFx ddFy x y w = Some w' ->
    (fuel <= fuel')%nat ->
    circle.draw_loop bits line_fuel' fuel' c fx ddFx ddFy x y w = Some w'.
Proof.
  intros Hline.
  induction fuel as [|fuel IH]; intros fuel' fx ddFx ddFy x y w w' Hrun Hle.
  - cbn [circle.draw_loop] in Hrun.
    destruct fuel'; cbn [circle.draw_loop]; destruct (x <? y); congruence.
  - destruct fuel' as [|fuel']; [lia|].
    cbn [circle.draw_loop] in *.
    destruct (x <? y); [|assumption].
    destruct (0 <=? fx).
    + apply bind_some in Hrun. destruct Hrun as (w1 & H1 & Hrun).
      destruct (color_neq (circle.bg c) transparent).
      * rewrite (draw_chords_mono _ _ line_fuel' _ _ _ _ _ H1 Hline). cbn [bind].
        apply (IH fuel'); [assumption|lia].
      * rewrite H1. cbn [bind]. apply (IH fuel'); [assumption|lia].
    + apply bind_some in Hrun. destruct Hrun as (w1 & H1 & Hrun).
      destruct (color_neq (circle.bg c) transparent).
      * rewrite (draw_chords_mono _ _ line_fuel' _ _ _ _ _ H1 Hline). cbn [bind].
        apply (IH fuel'); [assumption|lia].
      * rewrite H1. cbn [bind]. apply (IH fuel'); [assumption|lia].
Qed.

Lemma circle_draw_mono {color} `{Color color} bits (fuel fuel' : nat)
    (c : circle.t) (w w' : window color) :
  circle.draw bits fuel c w = Some w' -> (fuel <= fuel')%nat ->
  circle.draw bits fuel' c w = Some w'.
Proof.
  unfold circle.draw. intros Hrun Hle.
  destruct (circle.radius c <? 1); [assumption|].
  apply bind_some in Hrun. destruct Hrun as (w1 & H1 & Hrun).
  destruct (color_neq (circle.bg c) transparent).
  - rewrite (line_draw_mono _ _ fuel' _ _ _ H1 Hle). cbn [bind].
    apply (circle_draw_loop_mono bits c fuel fuel' Hle fuel fuel'); assumption.
  - rewrite H1. cbn [bind].
    apply (circle_draw_loop_mono bits c fuel fuel' Hle fuel fuel'); assumption.
Qed.

(** Whatever the fuel, a circle inside the coordinate range that is drawn
    to the end has appended the writes of the midpoint walk. *)
Lemma circle_draw_result {color} `{Color color} bits (fuel : nat)
    (c : circle.t) (w w' : window color) :
  16 <= bits -> circle_fits bits c ->
  circle.draw bits fuel c w = Some w' ->
  w' = w ++ circle_writes c.
Proof.
  intros Hb Hfits Hrun.
  set (n := Z.to_nat (2 * circle.radius c)).
  apply circle_draw_mono with (fuel' := Nat.max fuel n) in Hrun; [|lia].
  rewrite (circle_draw_walk bits) in Hrun by (assumption || lia).
  congruence.
Qed.

(* ================================================================== *)
(** * The colors of the writes *)
(* ================================================================== *)

Lemma color_neq_true {color} `{Color color} (a b : color) :
  color_neq a b = true <-> a <> b.
Proof. unfold color_neq. destruct (color_eq_dec a b); split; congruence. Qed.

Lemma color_neq_false {color} `{Color color} (a b : color) :
  color_neq a b = false <-> a = b.
Proof. unfold color_neq. destruct (color_eq_dec a b); split; congruence. Qed.

(** A line writes in its own color only, whatever the width and the
    coordinates. *)
Lemma line_draw_loop_colors {color} bits steep x1 xstep ystep TwoDy TwoDyTwoDx (fg : color) :
  forall (fuel : nat) x y E (w w' : window color),
    line.draw_loop bits fuel steep x1 xstep ystep TwoDy TwoDyTwoDx fg x y E w = Some w' ->
    exists ws, w' = w ++ ws /\ Forall (fun pc => snd pc = fg) ws.
Proof.
  induction fuel as [|fuel IH]; intros x y E w w' Hrun.
  - cbn [line.draw_loop] in Hrun. destruct (x =? x1); [|discriminate].
    exists []. rewrite app_nil_r. split; [congruence|constructor].
  - cbn [line.draw_loop] in Hrun. destruct (x =? x1).
    + exists []. rewrite app_nil_r. split; [congruence|constructor].
    + assert (Hstep : exists p y' E',
                line.draw_loop bits fuel steep x1 xstep ystep TwoDy TwoDyTwoDx fg
                  (int_fast16_t bits (x + xstep)) y' E' (write w p fg) = Some w').
      { destruct steep; destruct (0 <? E); eauto. }
      destruct Hstep as (p & y' & E' & Hstep).
      apply IH in Hstep. destruct Hstep as (ws & -> & Hws).
      exists ((p, fg) :: ws). split.
      * apply write_app.
      * constructor; [reflexivity|assumption].
Qed.

Lemma line_draw_colors {color} bits (fuel : nat) (l : line.t) (w w' : window color) :
  line.draw bits fuel l w = Some w' ->
  exists ws, w' = w ++ ws /\ Forall (fun pc => snd pc = line.fg l) ws.
Proof.
  unfold line.draw.
  repeat match goal with
         | |- context [let '(_, _) := ?e in _] => destruct e
         | |- context [if ?c then _ else _] => destruct c
         end;
    apply line_draw_loop_colors.
Qed.

Lemma draw_chords_colors {color} `{Color color} bits (fuel : nat) (c : circle.t)
    x y (w w' : window color) :
  circle.draw_chords bits fuel c x y w = Some w' ->
  exists ws, w' = w ++ ws /\ Forall (fun pc => snd pc = circle.bg c) ws.
Proof.
  unfold circle.draw_chords. intros Hrun.
  apply bind_some in Hrun. destruct Hrun as (w1 & H1 & Hrun).
  apply bind_some in Hrun. destruct Hrun as (w2 & H2 & Hrun).
  apply bind_some in Hrun. destruct Hrun as (w3 & H3 & Hrun).
  apply line_draw_colors in H1. destruct H1 as (ws1 & -> & Hws1).
  apply line_draw_colors in H2. destruct H2 as (ws2 & -> & Hws2).
  apply line_draw_colors in H3. destruct H3 as (ws3 & -> & Hws3).
  apply line_draw_colors in Hrun. destruct Hrun as (ws4 & -> & Hws4).
  cbn [line.fg] in *.
  exists (ws1 ++ ws2 ++ ws3 ++ ws4). split.
  - rewrite <- !app_assoc. reflexivity.
  - repeat (apply Forall_app; split); assumption.
Qed.

Lemma write_octants_colors {color} `{Color color} bits (c : circle.t) x y
    (w : window color) :
  exists ws, circle.write_octants bits c x y w = w ++ ws /\
             Forall (fun pc => snd pc = circle.fg c) ws.
Proof.
  unfold circle.write_octants, write. eexists. split.
  - rewrite <- !app_assoc. cbn [app]. reflexivity.
  - repeat constructor.
Qed.

Lemma circle_draw_loop_colors {color} `{Color color} bits (c : circle.t) (line_fuel : nat) :
  forall (fuel : nat) fx ddFx ddFy x y (w w' : window color),
    circle.draw_loop bits line_fuel fuel c fx ddFx ddFy x y w = Some w' ->
    exists ws, w' = w ++ ws /\ Forall (circle_color c) ws.
Proof.
  induction fuel as [|fuel IH]; intros fx ddFx ddFy x y w w' Hrun.
  - cbn [circle.draw_loop] in Hrun. destruct (x <? y); [discriminate|].
    exists []. rewrite app_nil_r. split; [congruence|constructor].
  - cbn [circle.draw_loop] in Hrun. destruct (x <? y).
    + assert (Hstep : exists fx' ddFx' ddFy' x' y' w1,
                (if color_neq (circle.bg c) transparent
                 then circle.draw_chords bits line_fuel c x' y'
                        (circle.write_octants bits c x' y' w)
                 else Some (circle.write_octants bits c x' y' w)) = Some w1 /\
                circle.draw_loop bits line_fuel fuel c fx' ddFx' ddFy' x' y' w1 = Some w').
      { destruct (0 <=? fx); apply bind_some in Hrun;
          destruct Hrun as (w1 & H1 & Hrun); eauto 10. }
      destruct Hstep as (fx' & ddFx' & ddFy' & x' & y' & w1 & H1 & Hstep).
      apply IH in Hstep. destruct Hstep as (ws & -> & Hws).
      destruct (write_octants_colors bits c x' y' w) as (wo & Hwo & Hfg).
      rewrite Hwo in H1.
      assert (Hfg' : Forall (circle_color c) wo).
      { eapply Forall_impl; [|exact Hfg]. intros pc Hpc. left. exact Hpc. }
      destruct (color_neq (circle.bg c) transparent) eqn:Hneq.
      * apply color_neq_true in Hneq.
        apply draw_chords_colors in H1. destruct H1 as (wc & -> & Hbg).
        exists (wo ++ wc ++ ws). split.
        -- rewrite <- !app_assoc. reflexivity.
        -- repeat (apply Forall_app; split); try assumption.
           eapply Forall_impl; [|exact Hbg]. intros pc Hpc. right. tauto.
      * injection H1 as <-. exists (wo ++ ws). split.
        -- rewrite <- !app_assoc. reflexivity.
        -- apply Forall_app; split; assumption.
    + exists []. rewrite app_nil_r. split; [congruence|constructor].
Qed.

Lemma circle_draw_colors {color} `{Color color} bits (fuel : nat) (c : circle.t)
    (w w' : window color) :
  circle.draw bits fuel c w = Some w' ->
  exists ws, w' = w ++ ws /\ Forall (circle_color c) ws.
Proof.
  unfold circle.draw. intros Hrun.
  destruct (circle.radius c <? 1).
  - exists []. rewrite app_nil_r. split; [congruence|constructor].
  - apply bind_some in Hrun. destruct Hrun as (w1 & H1 & Hrun).
    apply circle_draw_loop_colors in Hrun. destruct Hrun as (ws & -> & Hws).
    destruct (color_neq (circle.bg c) transparent).
    + apply line_draw_colors in H1. destruct H1 as (wl & -> & Hwl).
      cbn [line.fg] in Hwl. unfold write.
      eexists. split.
      * rewrite <- !app_assoc. cbn [app]. reflexivity.
      * repeat (apply Forall_cons; [left; reflexivity|]).
        apply Forall_app; split; [|assumption].
        eapply Forall_impl; [|exact Hwl]. intros pc Hpc. left. exact Hpc.
    + injection H1 as <-. unfold write.
      eexists. split.
      * rewrite <- !app_assoc. cbn [app]. reflexivity.
      * repeat (apply Forall_cons; [left; reflexivity|]). assumption.
Qed.

(* ================================================================== *)
(** * The pixels of a circle *)
(* ================================================================== *)

Lemma in_paint {color} (col col' : color) p ps :
  In (p, col') (paint col ps) <-> col' = col /\ In p ps.
Proof.
  unfold paint. rewrite in_map_iff. split.
  - intros (q & Heq & Hin). injection Heq as -> ->. tauto.
  - intros (-> & Hin). exists p. tauto.
Qed.

Lemma shift_inj c x y x' y' :
  shift c x y = shift c x' y' -> x = x' /\ y = y'.
Proof. unfold shift. intros Heq. injection Heq. lia. Qed.

(** The eight pixels of a round are the offsets that agree with [(a, b)]
    up to signs and the swap of the axes. *)
Lemma in_octant_pixels c a b x y :
  In (shift c x y) (octant_pixels c a b) <->
  (Z.abs x = Z.abs a /\ Z.abs y = Z.abs b) \/
  (Z.abs x = Z.abs b /\ Z.abs y = Z.abs a).
Proof.
  unfold octant_pixels. split.
  - intros Hin. cbn [In] in Hin.
    repeat (destruct Hin as [Heq|Hin];
            [apply shift_inj in Heq; lia|]).
    destruct Hin.
  - intros [[Hx Hy]|[Hx Hy]];
      apply Z.abs_eq_cases in Hx; apply Z.abs_eq_cases in Hy;
      destruct Hx as [->| ->]; destruct Hy as [->| ->];
      cbn [In]; tauto.
Qed.

Lemma in_axis_pixels c r x y :
  In (shift c x y) (axis_pixels c r) <->
  (x = 0 /\ Z.abs y = Z.abs r) \/ (Z.abs x = Z.abs r /\ y = 0).
Proof.
  unfold axis_pixels. split.
  - intros Hin. cbn [In] in Hin.
    repeat (destruct Hin as [Heq|Hin];
            [apply shift_inj in Heq; lia|]).
    destruct Hin.
  - intros [[-> Hy]|[Hx ->]].
    + apply Z.abs_eq_cases in Hy. destruct Hy as [->| ->]; cbn [In]; tauto.
    + apply Z.abs_eq_cases in Hx. destruct Hx as [->| ->]; cbn [In]; tauto.
Qed.

(** The writes of an outline-only circle: the axis points and the eight
    points of every round, all in the foreground color. *)
Lemma outline_writes {color} `{Color color} (c : circle.t) :
  1 <= circle.radius c -> circle.bg c = transparent ->
  circle_writes c
  = paint (circle.fg c)
      (axis_pixels (circle.start c) (circle.radius c) ++
       flat_map (fun p => octant_pixels (circle.start c) (fst p) (snd p))
                (rounds (circle.radius c))).
Proof.
  intros Hr Hbg. unfold circle_writes, head_writes.
  destruct (Z.ltb_spec (circle.radius c) 1); [lia|].
  assert (Hno : color_neq (circle.bg c) transparent = false)
    by (apply color_neq_false; assumption).
  rewrite Hno, app_nil_r, paint_app. f_equal.
  induction (rounds (circle.radius c)) as [|p ps IH]; [reflexivity|].
  cbn [flat_map]. rewrite paint_app, <- IH. f_equal.
  unfold round_writes. rewrite Hno, app_nil_r. reflexivity.
Qed.

Lemma in_outline_pixels c r x y :
  In (shift c x y)
     (axis_pixels c r ++ flat_map (fun p => octant_pixels c (fst p) (snd p)) (rounds r))
  <-> on_outline r x y.
Proof.
  unfold on_outline. rewrite in_app_iff, in_axis_pixels, in_flat_map.
  split.
  - intros [Hax|(p & Hp & Hin)]; [tauto|].
    right. right. exists p. split; [assumption|].
    apply in_octant_pixels in Hin. exact Hin.
  - intros [Hax|[Hax|(p & Hp & Hin)]]; [tauto|tauto|].
    right. exists p. split; [assumption|].
    apply in_octant_pixels. exact Hin.
Qed.

(** The offsets of the outline are closed under the change of a sign and
    under the swap of the axes. *)
Lemma on_outline_sym r x y x' y' :
  on_outline r x y ->
  (Z.abs x' = Z.abs x /\ Z.abs y' = Z.abs y) \/
  (Z.abs x' = Z.abs y /\ Z.abs y' = Z.abs x) ->
  on_outline r x' y'.
Proof.
  unfold on_outline. intros [Hax|[Hax|(p & Hp & Hin)]] Hsym.
  - destruct Hsym; [left|right; left]; lia.
  - destruct Hsym; [right; left|left]; lia.
  - right. right. exists p. split; [assumption|]. lia.
Qed.

(* ================================================================== *)
(** * The rows of a filled circle *)
(* ================================================================== *)

Lemma bres_flat n i : 0 < n -> bres n 0 i = 0.
Proof. intros Hn. apply bres_unique; lia. Qed.

(** A chord from [(c.x + a, c.y + j)] to [(c.x + b, c.y + j)] with
    [a <= b] writes the offsets [a], ..., [b - 1] of row [j]. *)
Lemma in_chord c a b j p :
  a <= b ->
  In p (line_pixels (shift c a j) (shift c b j)) <->
  exists i, a <= i < b /\ p = shift c i j.
Proof.
  intros Hab. rewrite in_line_pixels.
  assert (Hmajor : line_major (shift c a j) (shift c b j) = b - a)
    by (unfold line_major, shift; cbn [xy_x xy_y]; lia).
  rewrite Hmajor.
  assert (Hpix : forall k, 0 <= k < b - a ->
            line_pixel (shift c a j) (shift c b j) k = shift c (a + k) j).
  { intros k Hk. unfold line_pixel, shift, walk_pixel. cbn [xy_x xy_y].
    destruct (Z.leb_spec (Z.abs (xy_x c + b - (xy_x c + a)))
                         (Z.abs (xy_y c + j - (xy_y c + j)))); [lia|].
    replace (xy_y c + j - (xy_y c + j)) with 0 by ring.
    rewrite bres_flat by lia.
    destruct (sgn_cases (xy_x c + b - (xy_x c + a))) as [[-> ?]|[-> ?]]; [|lia].
    f_equal; ring. }
  split.
  - intros (k & Hk & ->). exists (a + k). split; [lia|]. apply Hpix. exact Hk.
  - intros (i & Hi & ->). exists (i - a). split; [lia|].
    rewrite Hpix by lia. f_equal; ring.
Qed.

(** The walk passes through every [x] from the start to its last round. *)
Lemma octant_has_x n r :
  forall x y j,
    x < j <= x + Z.of_nat (length (octant n r x y)) ->
    exists b, In (j, b) (octant n r x y).
Proof.
  induction n as [|n IH]; intros x y j Hj; [simpl in Hj; lia|].
  rewrite octant_S in *. destruct (x <? y); [|simpl in Hj; lia].
  cbn [length] in Hj. destruct (Z.eq_dec j (x + 1)) as [->|Hne].
  - exists (next_y r x y). left. reflexivity.
  - destruct (IH (x + 1) (next_y r x y) j ltac:(lia)) as (b & Hb).
    exists b. right. exact Hb.
Qed.

(** Below the start and above the last [x], the walk passes through every
    [y], and when it leaves row [j] at [(a, j)] the pixel after [a] is
    not inside the circle. *)
Lemma octant_has_y n r :
  forall x y j,
    walk_inv r x y -> y - x <= Z.of_nat n ->
    x + Z.of_nat (length (octant n r x y)) < j <= y ->
    exists a, (In (a, j) (octant n r x y) \/ (a = x /\ j = y)) /\
              r * r <= (a + 1) * (a + 1) + j * j.
Proof.
  induction n as [|n IH]; intros x y j Hinv Hn Hj; [simpl in Hj; lia|].
  rewrite octant_S in *. destruct (Z.ltb_spec x y) as [Hlt|]; [|simpl in Hj; lia].
  cbn [length] in Hj.
  pose proof (walk_inv_step r x y Hinv Hlt) as Hnext.
  destruct (Z_le_gt_dec j (next_y r x y)) as [Hle|Hgt].
  - destruct (IH (x + 1) (next_y r x y) j Hnext) as (a & Ha & Hout).
    + unfold next_y. destruct (0 <=? midpoint r x y); lia.
    + lia.
    + exists a. split; [|exact Hout].
      destruct Ha as [Ha|[-> ->]]; left; [right; exact Ha|left; reflexivity].
  - exists x. unfold next_y in Hgt.
    destruct (Z.leb_spec 0 (midpoint r x y)) as [Hpos|]; [|lia].
    assert (j = y) by lia. subst j.
    split; [right; split; reflexivity|].
    unfold walk_inv in Hinv. unfold midpoint in Hpos. nia.
Qed.

(** A walk that has ended made at least [(y - x) / 2] rounds: [y] goes
    down by at most one a round. *)
Lemma octant_length_lower n r :
  forall x y,
    y - x <= Z.of_nat n ->
    y - x <= 2 * Z.of_nat (length (octant n r x y)).
Proof.
  induction n as [|n IH]; intros x y Hn; [simpl; lia|].
  rewrite octant_S. destruct (Z.ltb_spec x y) as [Hlt|]; [|simpl; lia].
  cbn [length].
  assert (Hny : y - 1 <= next_y r x y <= y)
    by (unfold next_y; destruct (0 <=? midpoint r x y); lia).
  specialize (IH (x + 1) (next_y r x y) ltac:(lia)). lia.
Qed.

(** A round at [(a, b)] covers row [+-a] out to [+-b] and row [+-b] out
    to [+-a]: the chord up to the last pixel but one, the outline point the
    last. *)
Lemma round_covers {color} `{Color color} (c : circle.t) (q : Z * Z) i j :
  circle.bg c <> transparent ->
  0 <= fst q -> 0 <= snd q ->
  (Z.abs j = fst q /\ Z.abs i <= snd q) \/ (Z.abs j = snd q /\ Z.abs i <= fst q) ->
  In (shift (circle.start c) i j, circle.fg c) (round_writes c q) \/
  In (shift (circle.start c) i j, circle.bg c) (round_writes c q).
Proof.
  intros Hbg Ha Hb Hrow. destruct q as [a b]. cbn [fst snd] in *.
  unfold round_writes. cbn [fst snd].
  assert (Hyes : color_neq (circle.bg c) transparent = true)
    by (apply color_neq_true; assumption).
  rewrite Hyes. rewrite !in_app_iff, !in_paint.
  destruct Hrow as [[Hj Hi]|[Hj Hi]].
  - destruct (Z.eq_dec i b) as [->|Hne].
    + left. left. split; [reflexivity|]. apply in_octant_pixels. lia.
    + right. right. split; [reflexivity|].
      unfold chord_pixels. rewrite !in_app_iff.
      assert (j = a \/ j = - a) as [->| ->] by lia.
      * right. right. left. apply in_chord; [lia|].
        exists i. split; [lia|reflexivity].
      * right. right. right. apply in_chord; [lia|].
        exists i. split; [lia|reflexivity].
  - destruct (Z.eq_dec i a) as [->|Hne].
    + left. left. split; [reflexivity|]. apply in_octant_pixels. lia.
    + right. right. split; [reflexivity|].
      unfold chord_pixels. rewrite !in_app_iff.
      assert (j = b \/ j = - b) as [->| ->] by lia.
      * left. apply in_chord; [lia|].
        exists i. split; [lia|reflexivity].
      * right. left. apply in_chord; [lia|].
        exists i. split; [lia|reflexivity].
Qed.

(** What a round at [(a, b)] writes lies on rows [+-a] within [+-b] or on
    rows [+-b] within [+-a]. *)
Lemma round_within {color} `{Color color} (c : circle.t) (q : Z * Z) i j col :
  0 <= fst q -> 0 <= snd q ->
  In (shift (circle.start c) i j, col) (round_writes c q) ->
  (Z.abs j = fst q /\ Z.abs i <= snd q) \/ (Z.abs j = snd q /\ Z.abs i <= fst q).
Proof.
  intros Ha Hb. destruct q as [a b]. cbn [fst snd] in *.
  unfold round_writes. cbn [fst snd]. rewrite in_app_iff, in_paint.
  intros [[_ Hin]|Hin].
  - apply in_octant_pixels in Hin. lia.
  - destruct (color_neq (circle.bg c) transparent); [|destruct Hin].
    apply in_paint in Hin. destruct Hin as [_ Hin].
    unfold chord_pixels in Hin. rewrite !in_app_iff in Hin.
    destruct Hin as [Hin|[Hin|[Hin|Hin]]];
      apply in_chord in Hin; try lia;
      destruct Hin as (k & Hk & Heq); apply shift_inj in Heq; lia.
Qed.

(** The pixels of the head of a filled circle: row 0 from [-r] to [r] and
    the two poles. *)
Lemma head_covers {color} `{Color color} (c : circle.t) i :
  circle.bg c <> transparent -> 0 <= circle.radius c ->
  Z.abs i <= circle.radius c ->
  In (shift (circle.start c) i 0, circle.fg c) (head_writes c).
Proof.
  intros Hbg Hr Hi. unfold head_writes.
  assert (Hyes : color_neq (circle.bg c) transparent = true)
    by (apply color_neq_true; assumption).
  rewrite Hyes. rewrite !in_app_iff, !in_paint.
  destruct (Z.eq_dec i (circle.radius c)) as [->|Hne].
  - left. split; [reflexivity|]. apply in_axis_pixels. lia.
  - right. split; [reflexivity|]. rewrite in_app_iff. right.
    apply in_chord; [lia|]. exists i. split; [lia|reflexivity].
Qed.

Lemma head_within {color} `{Color color} (c : circle.t) i j col :
  0 <= circle.radius c ->
  In (shift (circle.start c) i j, col) (head_writes c) ->
  i * i + j * j <= circle.radius c * circle.radius c.
Proof.
  intros Hr. unfold head_writes. rewrite in_app_iff, in_paint.
  intros [[_ Hin]|Hin].
  - apply in_axis_pixels in Hin. nia.
  - destruct (color_neq (circle.bg c) transparent); [|destruct Hin].
    apply in_paint in Hin. destruct Hin as [_ Hin].
    rewrite in_app_iff in Hin. destruct Hin as [Hin|Hin].
    + cbn [In] in Hin. destruct Hin as [Heq|[Heq|[]]];
        apply shift_inj in Heq; nia.
    + apply in_chord in Hin; [|lia].
      destruct Hin as (k & Hk & Heq). apply shift_inj in Heq. nia.
Qed.

(** Every pixel strictly inside the circle is written by a filled
    circle. *)
Lemma filled_covers {color} `{Color color} (c : circle.t) i j :
  1 <= circle.radius c -> circle.bg c <> transparent ->
  i * i + j * j < circle.radius c * circle.radius c ->
  In (shift (circle.start c) i j, circle.fg c) (circle_writes c) \/
  In (shift (circle.start c) i j, circle.bg c) (circle_writes c).
Proof.
  intros Hr Hbg Hin. set (r := circle.radius c) in *.
  unfold circle_writes. fold r. destruct (Z.ltb_spec r 1); [lia|].
  rewrite !in_app_iff, !in_flat_map.
  destruct (Z.eq_dec j 0) as [->|Hj].
  - left. left. apply head_covers; [assumption|lia|]. fold r. nia.
  - assert (Hround : exists q, In q (rounds r) /\
              ((Z.abs j = fst q /\ Z.abs i <= snd q) \/
               (Z.abs j = snd q /\ Z.abs i <= fst q))).
    { assert (Ht : 1 <= Z.abs j < r) by nia.
      pose proof (walk_inv_start r ltac:(lia)) as Hinv.
      destruct (Z_le_gt_dec (Z.abs j) (Z.of_nat (length (rounds r)))) as [Hx|Hy].
      - destruct (octant_has_x (Z.to_nat r) r 0 r (Z.abs j) ltac:(unfold rounds in Hx; lia))
          as (b & Hb).
        exists (Z.abs j, b). split; [exact Hb|]. left. cbn [fst snd].
        split; [reflexivity|].
        apply (octant_inv _ _ _ _ _ Hinv) in Hb. destruct Hb as [Hb _].
        unfold walk_inv in Hb. cbn [fst snd] in Hb. nia.
      - destruct (octant_has_y (Z.to_nat r) r 0 r (Z.abs j) Hinv ltac:(lia)
                    ltac:(unfold rounds in Hy; lia))
          as (a & [Ha|[_ Ha]] & Hout); [|lia].
        exists (a, Z.abs j). split; [exact Ha|]. right. cbn [fst snd].
        split; [reflexivity|].
        apply (octant_inv _ _ _ _ _ Hinv) in Ha. destruct Ha as [Ha _].
        unfold walk_inv in Ha. cbn [fst snd] in Ha. nia. }
    destruct Hround as (q & Hq & Hrow).
    assert (Hqinv : walk_inv r (fst q) (snd q)).
    { apply (octant_inv (Z.to_nat r) r 0 r q); [apply walk_inv_start; lia|exact Hq]. }
    destruct (round_covers c q i j Hbg) as [Hfg|Hfill];
      try (unfold walk_inv in Hqinv; lia); try assumption.
    + left. right. exists q. split; assumption.
    + right. right. exists q. split; assumption.
Qed.

(** No write of a circle is as far as [r + 1] from the center. *)
Lemma circle_writes_within {color} `{Color color} (c : circle.t) i j col :
  1 <= circle.radius c ->
  In (shift (circle.start c) i j, col) (circle_writes c) ->
  i * i + j * j < (circle.radius c + 1) * (circle.radius c + 1).
Proof.
  intros Hr. set (r := circle.radius c) in *.
  unfold circle_writes. fold r. destruct (Z.ltb_spec r 1); [lia|].
  rewrite in_app_iff, in_flat_map. intros [Hin|(q & Hq & Hin)].
  - apply head_within in Hin; [|lia]. fold r in Hin. nia.
  - pose proof (octant_inv (Z.to_nat r) r 0 r q (walk_inv_start r ltac:(lia)) Hq)
      as [Hinv _].
    unfold walk_inv, midpoint in Hinv.
    apply round_within in Hin; try lia.
    destruct Hin as [[Hj Hi]|[Hj Hi]].
    + assert (j * j = fst q * fst q) by nia.
      assert (i * i <= snd q * snd q) by nia. nia.
    + assert (j * j = snd q * snd q) by nia.
      assert (i * i <= fst q * fst q) by nia. nia.
Qed.

(* ================================================================== *)
(** * The number of writes of a circle *)
(* ================================================================== *)

Lemma rounds_length r : 0 <= r -> Z.of_nat (length (rounds r)) <= r.
Proof.
  intros Hr. unfold rounds.
  pose proof (octant_length (Z.to_nat r) r 0 r ltac:(lia)). lia.
Qed.

Lemma chord_length c a b j :
  a <= b -> Z.of_nat (length (line_pixels (shift c a j) (shift c b j))) = b - a.
Proof.
  intros Hab. rewrite line_pixels_length.
  unfold line_major, shift. cbn [xy_x xy_y]. lia.
Qed.

Lemma chord_pixels_length c a b :
  0 <= a -> 0 <= b ->
  Z.of_nat (length (chord_pixels c a b)) = 4 * a + 4 * b.
Proof.
  intros Ha Hb. unfold chord_pixels. rewrite !length_app, !Nat2Z.inj_add.
  rewrite !chord_length by lia. ring.
Qed.

Lemma round_writes_length {color} `{Color color} (c : circle.t) (q : Z * Z) :
  0 <= fst q -> 0 <= snd q ->
  Z.of_nat (length (round_writes c q))
  = 8 + (if color_neq (circle.bg c) transparent then 4 * fst q + 4 * snd q else 0).
Proof.
  intros Ha Hb. unfold round_writes.
  rewrite length_app, Nat2Z.inj_add, paint_length.
  destruct (color_neq (circle.bg c) transparent).
  - rewrite paint_length, chord_pixels_length by assumption. reflexivity.
  - reflexivity.
Qed.

Lemma head_writes_length {color} `{Color color} (c : circle.t) :
  0 <= circle.radius c ->
  Z.of_nat (length (head_writes c))
  = 4 + (if color_neq (circle.bg c) transparent then 2 + 2 * circle.radius c else 0).
Proof.
  intros Hr. unfold head_writes.
  rewrite length_app, Nat2Z.inj_add, paint_length.
  destruct (color_neq (circle.bg c) transparent).
  - rewrite paint_length, length_app, Nat2Z.inj_add, chord_length by lia.
    cbn [axis_pixels length]. lia.
  - reflexivity.
Qed.

(** The writes of the rounds, bounded round by round. *)
Lemma rounds_writes_upper {color} `{Color color} (c : circle.t) (bound : Z) (qs : list (Z * Z)) :
  (forall q, In q qs -> Z.of_nat (length (round_writes c q)) <= bound) ->
  Z.of_nat (length (flat_map (round_writes c) qs)) <= Z.of_nat (length qs) * bound.
Proof.
  induction qs as [|q qs IH]; intros Hq; [simpl; lia|].
  cbn [flat_map length]. rewrite length_app, Nat2Z.inj_add, Nat2Z.inj_succ.
  specialize (Hq q (or_introl eq_refl)) as Hq0.
  specialize (IH (fun q' Hin => Hq q' (or_intror Hin))). nia.
Qed.

(** An outline-only circle writes at most [4 + 8 r] times, a filled one at
    most [8 r^2 + 10 r + 6] times. *)
Lemma circle_writes_upper {color} `{Color color} (c : circle.t) :
  0 <= circle.radius c ->
  (circle.bg c = transparent ->
   Z.of_nat (length (circle_writes c)) <= 4 + 8 * circle.radius c) /\
  Z.of_nat (length (circle_writes c))
  <= 8 * circle.radius c * circle.radius c + 10 * circle.radius c + 6.
Proof.
  intros Hr. set (r := circle.radius c) in *.
  unfold circle_writes. fold r. destruct (Z.ltb_spec r 1) as [|Hr1].
  - cbn [length Z.of_nat]. split; [intros _|]; nia.
  - rewrite length_app, Nat2Z.inj_add, head_writes_length by assumption. fold r.
    pose proof (rounds_length r Hr) as Hlen.
    assert (Hq : forall q, In q (rounds r) -> 0 <= fst q <= r /\ 0 <= snd q <= r).
    { intros q Hin.
      apply (octant_inv _ _ _ _ _ (walk_inv_start r Hr)) in Hin.
      unfold walk_inv in Hin. lia. }
    split.
    + intros Hbg. apply color_neq_false in Hbg. rewrite Hbg.
      assert (Hup : Z.of_nat (length (flat_map (round_writes c) (rounds r)))
                    <= Z.of_nat (length (rounds r)) * 8).
      { apply rounds_writes_upper. intros q Hin. destruct (Hq q Hin).
        rewrite round_writes_length by lia. rewrite Hbg. lia. }
      lia.
    + assert (Hup : Z.of_nat (length (flat_map (round_writes c) (rounds r)))
                    <= Z.of_nat (length (rounds r)) * (8 + 8 * r)).
      { apply rounds_writes_upper. intros q Hin. destruct (Hq q Hin).
        rewrite round_writes_length by lia.
        destruct (color_neq (circle.bg c) transparent); lia. }
      destruct (color_neq (circle.bg c) transparent); nia.
Qed.

(** The chords of the rounds of a filled circle, from below: the round
    with [x = k] writes at least [4 k] chord pixels. *)
Lemma rounds_writes_lower {color} `{Color color} (c : circle.t) n r :
  circle.bg c <> transparent ->
  forall x y,
    walk_inv r x y ->
    4 * x * Z.of_nat (length (octant n r x y))
    + 2 * Z.of_nat (length (octant n r x y)) * (Z.of_nat (length (octant n r x y)) + 1)
    <= Z.of_nat (length (flat_map (round_writes c) (octant n r x y))).
Proof.
  intros Hbg. apply color_neq_true in Hbg.
  induction n as [|n IH]; intros x y Hinv; [simpl; lia|].
  rewrite octant_S. destruct (Z.ltb_spec x y) as [Hlt|]; [|simpl; lia].
  pose proof (walk_inv_step r x y Hinv Hlt) as Hnext.
  specialize (IH (x + 1) (next_y r x y) Hnext).
  cbn [flat_map length]. rewrite length_app, Nat2Z.inj_add, Nat2Z.inj_succ.
  rewrite round_writes_length by (cbn [fst snd]; unfold walk_inv in Hnext; lia).
  rewrite Hbg. cbn [fst snd]. unfold walk_inv in Hnext. nia.
Qed.

(** A filled circle of radius [r] writes at least [r^2 / 2] times. *)
Lemma filled_writes_lower {color} `{Color color} (c : circle.t) :
  1 <= circle.radius c -> circle.bg c <> transparent ->
  circle.radius c * circle.radius c <= 2 * Z.of_nat (length (circle_writes c)).
Proof.
  intros Hr Hbg. set (r := circle.radius c) in *.
  unfold circle_writes. fold r. destruct (Z.ltb_spec r 1); [lia|].
  rewrite length_app, Nat2Z.inj_add.
  pose proof (rounds_writes_lower c (Z.to_nat r) r Hbg 0 r (walk_inv_start r ltac:(lia)))
    as Hlow.
  pose proof (octant_length_lower (Z.to_nat r) r 0 r ltac:(lia)) as Hlen.
  fold (rounds r) in Hlow, Hlen. nia.
Qed.

(* ================================================================== *)
(** * The properties *)
(* ================================================================== *)

(** Each property is stated on [line.draw] and [circle.draw], the code.
    Where the code does something else than the stated property, the
    property the code has comes first ("as the code has it") and the input
    on which the stated one fails second ("as stated fails"). *)

(** C1, as the code has it.  A line from (0,0) to (3,0) with foreground
    black appends exactly the writes (0,0), (1,0), (2,0), in that order,
    each once and each in black: the loop runs while [x != x1], so the end
    point (3,0) is not written. *)
Theorem line_0_3_writes {color} `{Color color} bits (fuel : nat) (w : window color) :
  16 <= bits -> (3 <= fuel)%nat ->
  line.draw bits fuel (line.make (mk_xy 0 0) (mk_xy 3 0) black) w
  = Some (w ++ [(mk_xy 0 0, black); (mk_xy 1 0, black); (mk_xy 2 0, black)]).
Proof.
  intros Hb Hfuel.
  rewrite (line_draw_walk bits Hb).
  - reflexivity.
  - destruct (pow_split bits Hb) as (P & HP & H3 & _).
    unfold line_fits, coord_ok. cbn [line.start line.end_ xy_x xy_y].
    rewrite H3. lia.
  - cbn [line.start line.end_]. change (line_major (mk_xy 0 0) (mk_xy 3 0)) with 3.
    lia.
Qed.

Lemma line_0_3_writes_witness :
  line.draw 16 3 (line.make (mk_xy 0 0) (mk_xy 3 0) Black) []
  = Some [(mk_xy 0 0, Black); (mk_xy 1 0, Black); (mk_xy 2 0, Black)].
Proof.
  exact (line_0_3_writes (color := palette) 16 3 [] ltac:(lia) ltac:(lia)).
Defined.

(** C1 as stated fails: no width and no fuel make the line from (0,0) to
    (3,0) write the four pixels (0,0), (1,0), (2,0), (3,0). *)
Lemma line_0_3_end_point_not_written :
  ~ exists bits fuel,
      16 <= bits /\
      line.draw bits fuel (line.make (mk_xy 0 0) (mk_xy 3 0) Black) []
      = Some [(mk_xy 0 0, Black); (mk_xy 1 0, Black);
              (mk_xy 2 0, Black); (mk_xy 3 0, Black)].
Proof.
  intros (bits & fuel & Hb & Hrun).
  apply (line_draw_result bits fuel _ _ _ Hb) in Hrun.
  - discriminate Hrun.
  - destruct (pow_split bits Hb) as (P & HP & H3 & _).
    unfold line_fits, coord_ok. cbn [line.start line.end_ xy_x xy_y].
    rewrite H3. lia.
Qed.

(** C2, the code at a filled circle: center (0,0), radius 2, foreground
    black, fill white.  Before the octant loop the code writes the four
    axis points, the top and the bottom again, and then the diameter from
    (-2,0) up to (1,0): in black, the foreground, not in white.  No later
    write touches that row, so (0,0) is never written in the fill color. *)
Lemma circle_diameter_in_foreground :
  exists ws rest,
    circle.draw 16 4 (circle.make (mk_xy 0 0) 2 Black White) [] = Some ws /\
    ws = paint Black
           [mk_xy 0 2; mk_xy 0 (-2); mk_xy 2 0; mk_xy (-2) 0;
            mk_xy 0 2; mk_xy 0 (-2);
            mk_xy (-2) 0; mk_xy (-1) 0; mk_xy 0 0; mk_xy 1 0] ++ rest /\
    In (mk_xy 0 0, Black) ws /\
    ~ In (mk_xy 0 0, White) ws.
Proof.
  eexists. eexists. split; [vm_compute; reflexivity|].
  split; [cbn [paint map app]; reflexivity|].
  split.
  - cbn [In]. tauto.
  - cbn [In]. intros Hin.
    repeat (destruct Hin as [Heq|Hin]; [discriminate Heq|]). exact Hin.
Qed.

(** C3, as the code has it.  Drawing from A to B and from B to A does not
    write the same pixels.  The pixels written from A to B, together with
    B, are the pixels written from B to A, together with A, exactly when
    the line is tie-free.  Every horizontal, vertical and 45 degree line is
    tie-free, and every line whose longer extent is odd.  Each direction
    writes, at every distance from its own start, the pixel nearest to the
    ideal line, and where the line passes exactly half-way between two
    pixels the one nearer to its own start.  When A and B differ, each
    direction writes its own start point and not its own end point. *)
Theorem line_reverse_same_pixels {color} `{Color color} bits (fuel : nat)
    (a b : xy) (fg : color) :
  16 <= bits ->
  line_fits bits a b ->
  (Z.to_nat (line_major a b) <= fuel)%nat ->
  exists wab wba,
    line.draw bits fuel (line.make a b fg) [] = Some wab /\
    line.draw bits fuel (line.make b a fg) [] = Some wba /\
    ((forall p, In p (b :: pixels wab) <-> In p (a :: pixels wba))
     <-> tie_free a b) /\
    (xy_x a = xy_x b \/ xy_y a = xy_y b \/
     Z.abs (xy_x b - xy_x a) = Z.abs (xy_y b - xy_y a) \/
     Z.odd (line_major a b) = true ->
     tie_free a b) /\
    (forall p, In p (pixels wab) -> rounded_to_start a b p) /\
    (forall p, In p (pixels wba) -> rounded_to_start b a p) /\
    (a <> b ->
     In a (pixels wab) /\ ~ In b (pixels wab) /\
     In b (pixels wba) /\ ~ In a (pixels wba)).
Proof.
  intros Hb Hfits Hfuel.
  exists (paint fg (line_pixels a b)), (paint fg (line_pixels b a)).
  rewrite !pixels_paint.
  split; [|split; [|split; [|split; [|split; [|split]]]]].
  - apply (line_draw_walk bits Hb fuel (line.make a b fg) []); assumption.
  - apply (line_draw_walk bits Hb fuel (line.make b a fg) []).
    + unfold line_fits in *. cbn [line.start line.end_]. tauto.
    + cbn [line.start line.end_]. rewrite line_major_sym. assumption.
  - apply line_pixels_reverse_iff.
  - apply tie_free_when.
  - apply line_pixels_rounded.
  - apply line_pixels_rounded.
  - intros Hab.
    destruct (line_pixels_start_end a b Hab) as [Ha Hnb].
    destruct (line_pixels_start_end b a (fun E => Hab (eq_sym E))) as [Hb' Hna].
    tauto.
Qed.

Lemma line_reverse_same_pixels_witness :
  exists wab wba,
    line.draw 16 3 (line.make (mk_xy 0 0) (mk_xy 3 1) Black) [] = Some wab /\
    line.draw 16 3 (line.make (mk_xy 3 1) (mk_xy 0 0) Black) [] = Some wba /\
    ((forall p, In p (mk_xy 3 1 :: pixels wab) <-> In p (mk_xy 0 0 :: pixels wba))
     <-> tie_free (mk_xy 0 0) (mk_xy 3 1)) /\
    (xy_x (mk_xy 0 0) = xy_x (mk_xy 3 1) \/
     xy_y (mk_xy 0 0) = xy_y (mk_xy 3 1) \/
     Z.abs (xy_x (mk_xy 3 1) - xy_x (mk_xy 0 0))
       = Z.abs (xy_y (mk_xy 3 1) - xy_y (mk_xy 0 0)) \/
     Z.odd (line_major (mk_xy 0 0) (mk_xy 3 1)) = true ->
     tie_free (mk_xy 0 0) (mk_xy 3 1)) /\
    (forall p, In p (pixels wab) -> rounded_to_start (mk_xy 0 0) (mk_xy 3 1) p) /\
    (forall p, In p (pixels wba) -> rounded_to_start (mk_xy 3 1) (mk_xy 0 0) p) /\
    (mk_xy 0 0 <> mk_xy 3 1 ->
     In (mk_xy 0 0) (pixels wab) /\ ~ In (mk_xy 3 1) (pixels wab) /\
     In (mk_xy 3 1) (pixels wba) /\ ~ In (mk_xy 0 0) (pixels wba)).
Proof.
  apply (line_reverse_same_pixels (color := palette) 16 3 (mk_xy 0 0) (mk_xy 3 1) Black).
  - lia.
  - unfold line_fits, coord_ok. simpl. lia.
  - simpl. lia.
Defined.

(** C3 as stated fails twice over.  From (0,0) to (3,0) the pixel (0,0) is
    written, from (3,0) to (0,0) it is not.  And from (0,0) to (2,1) the
    pixel (1,0) is written, while from (2,1) to (0,0) it is not, and it is
    no end point either: that walk writes (1,1) instead. *)
Lemma line_reverse_differs :
  (exists wab wba,
     line.draw 16 3 (line.make (mk_xy 0 0) (mk_xy 3 0) Black) [] = Some wab /\
     line.draw 16 3 (line.make (mk_xy 3 0) (mk_xy 0 0) Black) [] = Some wba /\
     In (mk_xy 0 0) (pixels wab) /\ ~ In (mk_xy 0 0) (pixels wba)) /\
  (exists wab wba,
     line.draw 16 2 (line.make (mk_xy 0 0) (mk_xy 2 1) Black) [] = Some wab /\
     line.draw 16 2 (line.make (mk_xy 2 1) (mk_xy 0 0) Black) [] = Some wba /\
     In (mk_xy 1 0) (mk_xy 2 1 :: pixels wab) /\
     ~ In (mk_xy 1 0) (mk_xy 0 0 :: pixels wba)).
Proof.
  split.
  - eexists. eexists. split; [vm_compute; reflexivity|].
    split; [vm_compute; reflexivity|].
    split; [vm_compute; tauto|].
    vm_compute. intros [E|[E|[E|[]]]]; discriminate E.
  - eexists. eexists. split; [vm_compute; reflexivity|].
    split; [vm_compute; reflexivity|].
    split; [vm_compute; tauto|].
    vm_compute. intros [E|[E|[E|[]]]]; discriminate E.
Qed.

(** C4, as the code has it.  For a circle of radius [r >= 1] with a
    non-transparent fill, every pixel strictly inside the circle (squared
    distance from the center less than [r^2]) is written, in the fill color
    or in the foreground color.  Pixels strictly outside the circle are
    written too, as the midpoint walk takes the pixel nearest to the circle
    on either side of it; but no pixel as far as [r + 1] from the center
    (squared distance [(r + 1)^2] or more) is written. *)
Theorem filled_circle_covers_interior {color} `{Color color} bits (fuel : nat)
    (c : circle.t) (w : window color) :
  16 <= bits -> circle_fits bits c ->
  1 <= circle.radius c -> circle.bg c <> transparent ->
  (Z.to_nat (2 * circle.radius c) <= fuel)%nat ->
  exists ws,
    circle.draw bits fuel c w = Some (w ++ ws) /\
    (forall i j,
       i * i + j * j < circle.radius c * circle.radius c ->
       In (shift (circle.start c) i j, circle.bg c) ws \/
       In (shift (circle.start c) i j, circle.fg c) ws) /\
    (forall i j col,
       In (shift (circle.start c) i j, col) ws ->
       i * i + j * j < (circle.radius c + 1) * (circle.radius c + 1)).
Proof.
  intros Hb Hfits Hr Hbg Hfuel.
  exists (circle_writes c). split; [|split].
  - apply circle_draw_walk; assumption.
  - intros i j Hin. destruct (filled_covers c i j Hr Hbg Hin); tauto.
  - intros i j col. apply circle_writes_within. assumption.
Qed.

Lemma filled_circle_covers_interior_witness :
  exists ws,
    circle.draw 16 6 (circle.make (mk_xy 5 5) 3 Black White) [] = Some ([] ++ ws) /\
    (forall i j,
       i * i + j * j < 3 * 3 ->
       In (shift (mk_xy 5 5) i j, White) ws \/
       In (shift (mk_xy 5 5) i j, Black) ws) /\
    (forall i j col,
       In (shift (mk_xy 5 5) i j, col) ws ->
       i * i + j * j < (3 + 1) * (3 + 1)).
Proof.
  refine (filled_circle_covers_interior (H := palette_color) 16 6
            (circle.make (mk_xy 5 5) 3 Black White) [] _ _ _ _ _).
  - lia.
  - unfold circle_fits, coord_ok. simpl. lia.
  - simpl. lia.
  - discriminate.
  - simpl. lia.
Defined.

(** C4 as stated fails: the filled circle of radius 2 at (0,0) writes the
    pixel (1,2), whose squared distance from the center is 5, more than
    [r^2 = 4]. *)
Lemma filled_circle_writes_outside :
  exists ws,
    circle.draw 16 4 (circle.make (mk_xy 0 0) 2 Black White) [] = Some ws /\
    In (mk_xy 1 2, Black) ws /\
    1 * 1 + 2 * 2 > 2 * 2.
Proof.
  eexists. split; [vm_compute; reflexivity|].
  split; [cbn [In]; tauto|reflexivity].
Qed.

(** C5, as the code has it.  A circle at (0,0) of radius 1, foreground
    black, transparent fill, writes the four axis points and nothing else,
    all in black and with no chord; but the one round of the octant loop
    stands at [(x, y) = (1, 0)] and writes the same four points again,
    twice each: twelve writes, three of each point. *)
Theorem circle_radius_1_writes {color} `{Color color} bits (fuel : nat)
    (w : window color) :
  16 <= bits -> (2 <= fuel)%nat ->
  circle.draw bits fuel (circle.make (mk_xy 0 0) 1 black transparent) w
  = Some (w ++ paint black
            [mk_xy 0 1; mk_xy 0 (-1); mk_xy 1 0; mk_xy (-1) 0;
             mk_xy 1 0; mk_xy (-1) 0; mk_xy 1 0; mk_xy (-1) 0;
             mk_xy 0 1; mk_xy 0 1; mk_xy 0 (-1); mk_xy 0 (-1)]).
Proof.
  intros Hb Hfuel.
  rewrite (circle_draw_walk bits fuel _ w Hb).
  - rewrite outline_writes; [reflexivity|cbn [circle.radius]; lia|reflexivity].
  - destruct (pow_split bits Hb) as (P & HP & H3 & _).
    unfold circle_fits, coord_ok. cbn [circle.start circle.radius xy_x xy_y].
    rewrite H3. lia.
  - cbn [circle.radius]. lia.
Qed.

Lemma circle_radius_1_writes_witness :
  circle.draw 16 2 (circle.make (mk_xy 0 0) 1 Black Transparent) []
  = Some (paint Black
            [mk_xy 0 1; mk_xy 0 (-1); mk_xy 1 0; mk_xy (-1) 0;
             mk_xy 1 0; mk_xy (-1) 0; mk_xy 1 0; mk_xy (-1) 0;
             mk_xy 0 1; mk_xy 0 1; mk_xy 0 (-1); mk_xy 0 (-1)]).
Proof.
  exact (circle_radius_1_writes (color := palette) 16 2 [] ltac:(lia) ltac:(lia)).
Defined.

(** C5 as stated fails: no run of the circle of radius 1 is free of
    duplicate writes. *)
Lemma circle_radius_1_has_duplicates :
  ~ exists bits fuel ws,
      16 <= bits /\
      circle.draw bits fuel (circle.make (mk_xy 0 0) 1 Black Transparent) [] = Some ws /\
      NoDup (pixels ws).
Proof.
  intros (bits & fuel & ws & Hb & Hrun & Hnodup).
  apply (circle_draw_result bits fuel _ _ _ Hb) in Hrun.
  - subst ws. rewrite (NoDup_count_occ xy_eq_dec) in Hnodup.
    specialize (Hnodup (mk_xy 0 1)). vm_compute in Hnodup. lia.
  - destruct (pow_split bits Hb) as (P & HP & H3 & _).
    unfold circle_fits, coord_ok. cbn [circle.start circle.radius xy_x xy_y].
    rewrite H3. lia.
Qed.

(** C6, as the code has it.  A line with [|Dx| = |Dy|] writes exactly
    [|Dx|] pixels: one per step, and the end point is not written. *)
Theorem diagonal_line_pixel_count {color} `{Color color} bits (fuel : nat)
    (l : line.t) (w : window color) :
  16 <= bits ->
  line_fits bits (line.start l) (line.end_ l) ->
  Z.abs (xy_x (line.end_ l) - xy_x (line.start l))
  = Z.abs (xy_y (line.end_ l) - xy_y (line.start l)) ->
  (Z.to_nat (Z.abs (xy_x (line.end_ l) - xy_x (line.start l))) <= fuel)%nat ->
  exists ws,
    line.draw bits fuel l w = Some (w ++ ws) /\
    Z.of_nat (length ws) = Z.abs (xy_x (line.end_ l) - xy_x (line.start l)).
Proof.
  intros Hb Hfits Hdiag Hfuel.
  assert (Hmajor : line_major (line.start l) (line.end_ l)
                   = Z.abs (xy_x (line.end_ l) - xy_x (line.start l)))
    by (unfold line_major; lia).
  exists (paint (line.fg l) (line_pixels (line.start l) (line.end_ l))). split.
  - apply (line_draw_walk bits Hb); [assumption|]. rewrite Hmajor. assumption.
  - rewrite paint_length, line_pixels_length, Hmajor. lia.
Qed.

Lemma diagonal_line_pixel_count_witness :
  exists ws,
    line.draw 16 2 (line.make (mk_xy 0 0) (mk_xy 2 (-2)) Black) [] = Some ([] ++ ws) /\
    Z.of_nat (length ws) = Z.abs (2 - 0).
Proof.
  apply (diagonal_line_pixel_count (color := palette) 16 2
           (line.make (mk_xy 0 0) (mk_xy 2 (-2)) Black) []).
  - lia.
  - unfold line_fits, coord_ok. simpl. lia.
  - reflexivity.
  - simpl. lia.
Defined.

(** C6 as stated fails: the diagonal from (0,0) to (1,1) has
    [|Dx| = |Dy| = 1], and no run of it writes [|Dx| + 1 = 2] pixels. *)
Lemma diagonal_line_not_dx_plus_1 :
  ~ exists bits fuel ws,
      16 <= bits /\
      line.draw bits fuel (line.make (mk_xy 0 0) (mk_xy 1 1) Black) [] = Some ws /\
      Z.of_nat (length ws) = Z.abs (1 - 0) + 1.
Proof.
  intros (bits & fuel & ws & Hb & Hrun & Hlen).
  apply (line_draw_result bits fuel _ _ _ Hb) in Hrun.
  - subst ws. discriminate Hlen.
  - destruct (pow_split bits Hb) as (P & HP & H3 & _).
    unfold line_fits, coord_ok. cbn [line.start line.end_ xy_x xy_y].
    rewrite H3. lia.
Qed.

(** C7.  With transparent fill and radius at least 1, the pixels written
    are closed under the two reflections through the center and under the
    swap of the x and y offsets: whenever the pixel at offset [(x, y)] from
    the center is written, so are those at [(-x, y)], [(x, -y)],
    [(-x, -y)], [(y, x)], [(-y, x)], [(y, -x)] and [(-y, -x)]. *)
Theorem circle_outline_symmetric {color} `{Color color} bits (fuel : nat)
    (c : circle.t) (w : window color) :
  16 <= bits -> circle_fits bits c ->
  1 <= circle.radius c -> circle.bg c = transparent ->
  (Z.to_nat (2 * circle.radius c) <= fuel)%nat ->
  exists ws,
    circle.draw bits fuel c w = Some (w ++ ws) /\
    forall x y,
      In (shift (circle.start c) x y) (pixels ws) ->
      In (shift (circle.start c) (- x) y) (pixels ws) /\
      In (shift (circle.start c) x (- y)) (pixels ws) /\
      In (shift (circle.start c) (- x) (- y)) (pixels ws) /\
      In (shift (circle.start c) y x) (pixels ws) /\
      In (shift (circle.start c) (- y) x) (pixels ws) /\
      In (shift (circle.start c) y (- x)) (pixels ws) /\
      In (shift (circle.start c) (- y) (- x)) (pixels ws).
Proof.
  intros Hb Hfits Hr Hbg Hfuel.
  exists (circle_writes c). split.
  - apply circle_draw_walk; assumption.
  - rewrite outline_writes by assumption. rewrite pixels_paint.
    intros x y Hin. apply in_outline_pixels in Hin.
    repeat split; apply in_outline_pixels;
      (apply (on_outline_sym _ x y); [assumption|lia]).
Qed.

Lemma circle_outline_symmetric_witness :
  exists ws,
    circle.draw 16 6 (circle.make (mk_xy 10 20) 3 Black Transparent) [] = Some ([] ++ ws) /\
    forall x y,
      In (shift (mk_xy 10 20) x y) (pixels ws) ->
      In (shift (mk_xy 10 20) (- x) y) (pixels ws) /\
      In (shift (mk_xy 10 20) x (- y)) (pixels ws) /\
      In (shift (mk_xy 10 20) (- x) (- y)) (pixels ws) /\
      In (shift (mk_xy 10 20) y x) (pixels ws) /\
      In (shift (mk_xy 10 20) (- y) x) (pixels ws) /\
      In (shift (mk_xy 10 20) y (- x)) (pixels ws) /\
      In (shift (mk_xy 10 20) (- y) (- x)) (pixels ws).
Proof.
  refine (circle_outline_symmetric (color := palette) 16 6
            (circle.make (mk_xy 10 20) 3 Black Transparent) [] _ _ _ _ _).
  - lia.
  - unfold circle_fits, coord_ok. simpl. lia.
  - simpl. lia.
  - reflexivity.
  - simpl. lia.
Defined.

(** C8.  A circle of radius 0 writes nothing and ends normally: whatever
    the center, the colors, the width and the fuel, [circle::draw] returns
    the window it was given. *)
Theorem circle_radius_0_writes_nothing {color} `{Color color} bits (fuel : nat)
    (start : xy) (fg bg : color) (w : window color) :
  circle.draw bits fuel (circle.make start 0 fg bg) w = Some w.
Proof. reflexivity. Qed.

(** C9, as the code has it.  Inside the range where the integers do not
    wrap, every line and every circle is drawn to the end, with a bounded
    number of writes: exactly [max(|Dx|, |Dy|)] for a line; at most
    [4 + 8 r] for a circle with transparent fill; and for a filled circle
    at most [8 r^2 + 10 r + 6] and at least [r^2 / 2], which is not
    proportional to the radius but to its square, the chords being written
    pixel by pixel. *)
Theorem draw_terminates_bounded {color} `{Color color} bits :
  16 <= bits ->
  (forall (fuel : nat) (l : line.t) (w : window color),
     line_fits bits (line.start l) (line.end_ l) ->
     (Z.to_nat (line_major (line.start l) (line.end_ l)) <= fuel)%nat ->
     exists ws,
       line.draw bits fuel l w = Some (w ++ ws) /\
       Z.of_nat (length ws)
       = Z.max (Z.abs (xy_x (line.end_ l) - xy_x (line.start l)))
               (Z.abs (xy_y (line.end_ l) - xy_y (line.start l)))) /\
  (forall (fuel : nat) (c : circle.t) (w : window color),
     circle_fits bits c ->
     (Z.to_nat (2 * circle.radius c) <= fuel)%nat ->
     exists ws,
       circle.draw bits fuel c w = Some (w ++ ws) /\
       (circle.bg c = transparent ->
        Z.of_nat (length ws) <= 4 + 8 * circle.radius c) /\
       Z.of_nat (length ws)
       <= 8 * circle.radius c * circle.radius c + 10 * circle.radius c + 6 /\
       (circle.bg c <> transparent -> 1 <= circle.radius c ->
        circle.radius c * circle.radius c <= 2 * Z.of_nat (length ws))).
Proof.
  intros Hb. split.
  - intros fuel l w Hfits Hfuel.
    exists (paint (line.fg l) (line_pixels (line.start l) (line.end_ l))). split.
    + apply (line_draw_walk bits Hb); assumption.
    + rewrite paint_length, line_pixels_length.
      unfold line_major. lia.
  - intros fuel c w Hfits Hfuel.
    exists (circle_writes c). split.
    + apply circle_draw_walk; assumption.
    + pose proof (circle_writes_upper c ltac:(unfold circle_fits in Hfits; tauto))
        as [Hout Hfill].
      split; [exact Hout|]. split; [exact Hfill|].
      intros Hbg Hr. apply filled_writes_lower; assumption.
Qed.

Lemma draw_terminates_bounded_witness :
  (exists ws,
     line.draw 16 7 (line.make (mk_xy 1 2) (mk_xy (-6) 5) Black) [] = Some ([] ++ ws) /\
     Z.of_nat (length ws) = Z.max (Z.abs (-6 - 1)) (Z.abs (5 - 2))) /\
  (exists ws,
     circle.draw 16 6 (circle.make (mk_xy 0 0) 3 Black White) [] = Some ([] ++ ws) /\
     (White = Transparent -> Z.of_nat (length ws) <= 4 + 8 * 3) /\
     Z.of_nat (length ws) <= 8 * 3 * 3 + 10 * 3 + 6 /\
     (White <> Transparent -> 1 <= 3 -> 3 * 3 <= 2 * Z.of_nat (length ws))).
Proof.
  destruct (draw_terminates_bounded (H := palette_color) 16 ltac:(lia))
    as [Hline Hcircle].
  split.
  - refine (Hline 7%nat (line.make (mk_xy 1 2) (mk_xy (-6) 5) Black) [] _ _).
    + unfold line_fits, coord_ok. simpl. lia.
    + simpl. lia.
  - refine (Hcircle 6%nat (circle.make (mk_xy 0 0) 3 Black White) [] _ _).
    + unfold circle_fits, coord_ok. simpl. lia.
    + simpl. lia.
Defined.

(** C9 as stated fails for filled circles: there is no constant [k] such
    that every filled circle of radius [r] is drawn with at most [k * r]
    writes. *)
Lemma filled_circle_writes_not_linear :
  ~ exists k : Z,
      forall bits (fuel : nat) r ws,
        16 <= bits ->
        circle_fits bits (circle.make (mk_xy 0 0) r Black White) ->
        circle.draw bits fuel (circle.make (mk_xy 0 0) r Black White) [] = Some ws ->
        Z.of_nat (length ws) <= k * r.
Proof.
  intros (k & Hk).
  set (r := 2 * Z.max k 0 + 2).
  set (c := circle.make (mk_xy 0 0) r Black White).
  assert (Hb : 16 <= r + 16) by lia.
  assert (Hfits : circle_fits (r + 16) c).
  { unfold circle_fits, coord_ok, c. cbn [circle.start circle.radius xy_x xy_y].
    replace (r + 16 - 3) with (r + 13) by ring.
    pose proof (Z.pow_gt_lin_r 2 (r + 13) ltac:(lia) ltac:(lia)). lia. }
  pose proof (circle_draw_walk (r + 16) (Z.to_nat (2 * r)) c [] Hb Hfits
                ltac:(unfold c; cbn [circle.radius]; lia)) as Hrun.
  specialize (Hk (r + 16) (Z.to_nat (2 * r)) r _ Hb Hfits Hrun).
  cbn [app] in Hk.
  assert (Hbg : circle.bg c <> transparent) by (unfold c; discriminate).
  pose proof (filled_writes_lower c ltac:(unfold c; cbn [circle.radius]; lia) Hbg)
    as Hlow.
  unfold c in Hlow at 1 2. cbn [circle.radius] in Hlow. nia.
Qed.

(** C10, as the code has it.  Every write of [circle::draw] is in the
    foreground color or in the fill color, and one in the fill color that
    is not also the foreground color occurs only when the fill color is
    not the transparent sentinel; with transparent fill every write is in
    the foreground color.  The sentinel itself is never written provided
    the foreground color is not the sentinel: the code does not test
    [fg]. *)
Theorem circle_write_colors {color} `{Color color} bits (fuel : nat)
    (c : circle.t) (w w' : window color) :
  circle.draw bits fuel c w = Some w' ->
  exists ws,
    w' = w ++ ws /\
    (forall p col, In (p, col) ws ->
       col = circle.fg c \/ (col = circle.bg c /\ circle.bg c <> transparent)) /\
    (circle.bg c = transparent ->
       forall p col, In (p, col) ws -> col = circle.fg c) /\
    (circle.fg c <> transparent ->
       forall p, ~ In (p, transparent) ws).
Proof.
  intros Hrun. apply circle_draw_colors in Hrun.
  destruct Hrun as (ws & -> & Hws). exists ws.
  rewrite Forall_forall in Hws.
  assert (Hcol : forall p col, In (p, col) ws ->
            col = circle.fg c \/ (col = circle.bg c /\ circle.bg c <> transparent)).
  { intros p col Hin. exact (Hws (p, col) Hin). }
  split; [reflexivity|]. split; [exact Hcol|]. split.
  - intros Hbg p col Hin. destruct (Hcol p col Hin) as [|[_ Hne]]; [assumption|].
    contradiction.
  - intros Hfg p Hin. destruct (Hcol p transparent Hin) as [Heq|[Heq Hne]].
    + apply Hfg. symmetry. exact Heq.
    + apply Hne. symmetry. exact Heq.
Qed.

Lemma circle_write_colors_witness :
  exists ws,
    paint Black [mk_xy 0 1; mk_xy 0 (-1); mk_xy 1 0; mk_xy (-1) 0;
                 mk_xy 1 0; mk_xy (-1) 0; mk_xy 1 0; mk_xy (-1) 0;
                 mk_xy 0 1; mk_xy 0 1; mk_xy 0 (-1); mk_xy 0 (-1)] = [] ++ ws /\
    (forall p col, In (p, col) ws ->
       col = Black \/ (col = Transparent /\ Transparent <> Transparent)) /\
    (Transparent = Transparent ->
       forall p col, In (p, col) ws -> col = Black) /\
    (Black <> Transparent ->
       forall p, ~ In (p, Transparent) ws).
Proof.
  refine (circle_write_colors (H := palette_color) 16 2
            (circle.make (mk_xy 0 0) 1 Black Transparent) [] _ _).
  vm_compute. reflexivity.
Defined.

(** C10 as stated fails where the foreground color is the sentinel: the
    circle of radius 1 with transparent foreground and transparent fill
    writes (0,1) in the transparent color, which is also its fill
    color. *)
Lemma circle_writes_transparent_foreground :
  exists ws,
    circle.draw 16 2 (circle.make (mk_xy 0 0) 1 Transparent Transparent) [] = Some ws /\
    In (mk_xy 0 1, transparent) ws.
Proof.
  eexists. split; [vm_compute; reflexivity|]. cbn [In]. tauto.
Qed.


(* ================================================================== *)
(** * Further properties of [line::draw] *)
(* ================================================================== *)

Lemma line_draw_loop_done {color} bits (fuel : nat) steep x1 xstep ystep
    TwoDy TwoDyTwoDx (fg : color) y E (w : window color) :
  line.draw_loop bits fuel steep x1 xstep ystep TwoDy TwoDyTwoDx fg x1 y E w = Some w.
Proof. destruct fuel; cbn [line.draw_loop]; rewrite Z.eqb_refl; reflexivity. Qed.

(** X1.  A line whose end is its start draws nothing: whatever the point,
    the color, the width of the integers and the fuel, the loop is left
    before its first round. *)
Theorem line_point_draws_nothing {color} bits (fuel : nat) (p : xy) (fg : color)
    (w : window color) :
  line.draw bits fuel (line.make p p fg) w = Some w.
Proof.
  destruct p as [x y]. unfold line.draw, line.swap.
  cbn [line.start line.end_ line.fg xy_x xy_y].
  rewrite !Z.sub_diag, Z.leb_refl.
  destruct (int_fast16_t bits 0 <? 0); apply line_draw_loop_done.
Qed.

(** The pixels of a horizontal and of a vertical line. *)
Lemma horizontal_pixels x0 x1 y :
  line_pixels (mk_xy x0 y) (mk_xy x1 y)
  = map (fun i => mk_xy (x0 + sgn (x1 - x0) * i) y)
        (steps 0 (Z.to_nat (Z.abs (x1 - x0)))).
Proof.
  unfold line_pixels.
  assert (Hmajor : line_major (mk_xy x0 y) (mk_xy x1 y) = Z.abs (x1 - x0))
    by (unfold line_major; cbn [xy_x xy_y]; lia).
  rewrite Hmajor. apply map_ext_in. intros i Hi. apply in_steps in Hi.
  unfold line_pixel, walk_pixel. cbn [xy_x xy_y].
  rewrite Z.sub_diag. change (Z.abs 0) with 0.
  destruct (Z.leb_spec (Z.abs (x1 - x0)) 0); [lia|].
  rewrite bres_flat by lia. f_equal. ring.
Qed.

Lemma vertical_pixels x y0 y1 :
  line_pixels (mk_xy x y0) (mk_xy x y1)
  = map (fun i => mk_xy x (y0 + sgn (y1 - y0) * i))
        (steps 0 (Z.to_nat (Z.abs (y1 - y0)))).
Proof.
  unfold line_pixels.
  assert (Hmajor : line_major (mk_xy x y0) (mk_xy x y1) = Z.abs (y1 - y0))
    by (unfold line_major; cbn [xy_x xy_y]; lia).
  rewrite Hmajor. apply map_ext_in. intros i Hi. apply in_steps in Hi.
  unfold line_pixel, walk_pixel. cbn [xy_x xy_y].
  rewrite Z.sub_diag. change (Z.abs 0) with 0.
  destruct (Z.leb_spec 0 (Z.abs (y1 - y0))); [|lia].
  rewrite bres_flat by lia. f_equal. ring.
Qed.

(** X2.  A horizontal line from [(x0, y)] to [(x1, y)] writes the pixels
    [x0], [x0 +- 1], ... of row [y], towards [x1] and up to the pixel before
    it, in that order and in the line's color. *)
Theorem horizontal_line_writes {color} `{Color color} bits (fuel : nat)
    x0 x1 y (fg : color) (w : window color) :
  16 <= bits ->
  coord_ok bits x0 -> coord_ok bits x1 -> coord_ok bits y ->
  (Z.to_nat (Z.abs (x1 - x0)) <= fuel)%nat ->
  line.draw bits fuel (line.make (mk_xy x0 y) (mk_xy x1 y) fg) w
  = Some (w ++ paint fg (map (fun i => mk_xy (x0 + sgn (x1 - x0) * i) y)
                             (steps 0 (Z.to_nat (Z.abs (x1 - x0)))))).
Proof.
  intros Hb Hx0 Hx1 Hy Hfuel.
  rewrite (line_draw_walk bits Hb).
  - cbn [line.start line.end_ line.fg]. rewrite horizontal_pixels. reflexivity.
  - cbn [line.start line.end_]. unfold line_fits. cbn [xy_x xy_y]. tauto.
  - cbn [line.start line.end_]. unfold line_major. cbn [xy_x xy_y].
    rewrite Z.sub_diag. change (Z.abs 0) with 0. lia.
Qed.

Lemma horizontal_line_writes_witness :
  line.draw 16 3 (line.make (mk_xy 2 5) (mk_xy (-1) 5) Black) []
  = Some ([] ++ paint Black (map (fun i => mk_xy (2 + sgn (-1 - 2) * i) 5)
                               (steps 0 (Z.to_nat (Z.abs (-1 - 2)))))).
Proof.
  apply (horizontal_line_writes (color := palette) 16 3 2 (-1) 5 Black []).
  - lia.
  - unfold coord_ok. simpl. lia.
  - unfold coord_ok. simpl. lia.
  - unfold coord_ok. simpl. lia.
  - simpl. lia.
Defined.

(** X3.  A vertical line from [(x, y0)] to [(x, y1)] writes the pixels
    [y0], [y0 +- 1], ... of column [x], towards [y1] and up to the pixel
    before it, in that order and in the line's color. *)
Theorem vertical_line_writes {color} `{Color color} bits (fuel : nat)
    x y0 y1 (fg : color) (w : window color) :
  16 <= bits ->
  coord_ok bits x -> coord_ok bits y0 -> coord_ok bits y1 ->
  (Z.to_nat (Z.abs (y1 - y0)) <= fuel)%nat ->
  line.draw bits fuel (line.make (mk_xy x y0) (mk_xy x y1) fg) w
  = Some (w ++ paint fg (map (fun i => mk_xy x (y0 + sgn (y1 - y0) * i))
                             (steps 0 (Z.to_nat (Z.abs (y1 - y0)))))).
Proof.
  intros Hb Hx Hy0 Hy1 Hfuel.
  rewrite (line_draw_walk bits Hb).
  - cbn [line.start line.end_ line.fg]. rewrite vertical_pixels. reflexivity.
  - cbn [line.start line.end_]. unfold line_fits. cbn [xy_x xy_y]. tauto.
  - cbn [line.start line.end_]. unfold line_major. cbn [xy_x xy_y].
    rewrite Z.sub_diag. change (Z.abs 0) with 0. lia.
Qed.

Lemma vertical_line_writes_witness :
  line.draw 16 4 (line.make (mk_xy 7 (-2)) (mk_xy 7 2) Black) []
  = Some ([] ++ paint Black (map (fun i => mk_xy 7 (-2 + sgn (2 - -2) * i))
                               (steps 0 (Z.to_nat (Z.abs (2 - -2)))))).
Proof.
  apply (vertical_line_writes (color := palette) 16 4 7 (-2) 2 Black []).
  - lia.
  - unfold coord_ok. simpl. lia.
  - unfold coord_ok. simpl. lia.
  - unfold coord_ok. simpl. lia.
  - simpl. lia.
Defined.

(** The walk stays within half a step of the ideal line. *)
Lemma bres_accuracy n m i :
  0 < n -> 2 * Z.abs (i * m - bres n m i * n) <= n.
Proof.
  intros Hn. pose proof (bres_bounds n m i Hn). nia.
Qed.

(** One step of the walk moves the minor axis by nothing or by one. *)
Lemma bres_step n m i :
  0 < n -> 0 <= m <= n ->
  bres n m (i + 1) = bres n m i \/ bres n m (i + 1) = bres n m i + 1.
Proof.
  intros Hn Hm. destruct (Z_lt_le_dec 0 (bres_error n m i)).
  - right. apply bres_step_pos; assumption.
  - left. apply bres_step_neg; assumption.
Qed.

(** Where step [i] lies: within the box of the two end points and within
    half a pixel of the ideal line. *)
Lemma line_pixel_near a b i :
  0 <= i <= line_major a b ->
  Z.min (xy_x a) (xy_x b) <= xy_x (line_pixel a b i) <= Z.max (xy_x a) (xy_x b) /\
  Z.min (xy_y a) (xy_y b) <= xy_y (line_pixel a b i) <= Z.max (xy_y a) (xy_y b) /\
  2 * Z.abs ((xy_x (line_pixel a b i) - xy_x a) * (xy_y b - xy_y a)
             - (xy_y (line_pixel a b i) - xy_y a) * (xy_x b - xy_x a))
  <= line_major a b.
Proof.
  destruct (Z.eq_dec (line_major a b) 0) as [Hz|Hnz].
  - intros Hi. assert (i = 0) by lia. subst i. rewrite line_pixel_0, Hz.
    destruct a, b. unfold line_major in Hz. cbn [xy_x xy_y] in *. lia.
  - revert Hnz. destruct a as [x0 y0], b as [x1 y1].
    unfold line_major, line_pixel, walk_pixel. cbn [xy_x xy_y]. intros Hnz Hi.
    destruct (Z.leb_spec (Z.abs (x1 - x0)) (Z.abs (y1 - y0))) as [Hst|Hst];
      cbn [xy_x xy_y].
    + rewrite Z.max_r in * by lia.
      pose proof (bres_range (Z.abs (y1 - y0)) (Z.abs (x1 - x0)) i
                    ltac:(lia) ltac:(lia) Hi) as Hs.
      pose proof (bres_accuracy (Z.abs (y1 - y0)) (Z.abs (x1 - x0)) i ltac:(lia))
        as Hacc.
      set (s := bres (Z.abs (y1 - y0)) (Z.abs (x1 - x0)) i) in *.
      destruct (sgn_cases (x1 - x0)) as [[-> ?]|[-> ?]];
        destruct (sgn_cases (y1 - y0)) as [[-> ?]|[-> ?]];
        repeat split; nia.
    + rewrite Z.max_l in * by lia.
      pose proof (bres_range (Z.abs (x1 - x0)) (Z.abs (y1 - y0)) i
                    ltac:(lia) ltac:(lia) Hi) as Hs.
      pose proof (bres_accuracy (Z.abs (x1 - x0)) (Z.abs (y1 - y0)) i ltac:(lia))
        as Hacc.
      set (s := bres (Z.abs (x1 - x0)) (Z.abs (y1 - y0)) i) in *.
      destruct (sgn_cases (x1 - x0)) as [[-> ?]|[-> ?]];
        destruct (sgn_cases (y1 - y0)) as [[-> ?]|[-> ?]];
        repeat split; nia.
Qed.

(** Consecutive steps of a line are neighbours. *)
Lemma line_pixel_adjacent a b i :
  0 <= i < line_major a b ->
  adjacent (line_pixel a b i) (line_pixel a b (i + 1)).
Proof.
  destruct a as [x0 y0], b as [x1 y1].
  unfold adjacent, line_major, line_pixel, walk_pixel. cbn [xy_x xy_y]. intros Hi.
  destruct (Z.leb_spec (Z.abs (x1 - x0)) (Z.abs (y1 - y0))) as [Hst|Hst];
    cbn [xy_x xy_y].
  - rewrite Z.max_r in Hi by lia.
    destruct (bres_step (Z.abs (y1 - y0)) (Z.abs (x1 - x0)) i ltac:(lia) ltac:(lia))
      as [-> | ->];
      destruct (sgn_cases (x1 - x0)) as [[-> ?]|[-> ?]];
      destruct (sgn_cases (y1 - y0)) as [[-> ?]|[-> ?]]; lia.
  - rewrite Z.max_l in Hi by lia.
    destruct (bres_step (Z.abs (x1 - x0)) (Z.abs (y1 - y0)) i ltac:(lia) ltac:(lia))
      as [-> | ->];
      destruct (sgn_cases (x1 - x0)) as [[-> ?]|[-> ?]];
      destruct (sgn_cases (y1 - y0)) as [[-> ?]|[-> ?]]; lia.
Qed.

Lemma steps_snoc from len :
  steps from (S len) = steps from len ++ [from + Z.of_nat len].
Proof.
  unfold steps. rewrite seq_S, map_app. reflexivity.
Qed.

Lemma steps_NoDup from len : NoDup (steps from len).
Proof.
  unfold steps. apply NoDup_map_NoDup_ForallPairs; [|apply seq_NoDup].
  intros i j _ _ Heq. lia.
Qed.

Lemma chain_steps (f : Z -> xy) :
  forall len from,
    (forall i, from <= i < from + Z.of_nat len - 1 -> adjacent (f i) (f (i + 1))) ->
    chain (map f (steps from len)).
Proof.
  induction len as [|len IH]; intros from Hadj; [exact I|].
  rewrite steps_S. specialize (IH (from + 1)).
  destruct len as [|len]; [exact I|].
  rewrite steps_S in *. cbn [map chain] in *. split.
  - apply Hadj. lia.
  - apply IH. intros i Hi. apply Hadj. lia.
Qed.

(** X4.  Every pixel a line writes lies in the box spanned by its two end
    points and within half a pixel of the ideal line: twice the cross
    product of (pixel - start) with (end - start) is at most
    [max(|Dx|, |Dy|)] in absolute value. *)
Theorem line_pixels_near_ideal {color} `{Color color} bits (fuel : nat)
    (l : line.t) (w : window color) :
  16 <= bits ->
  line_fits bits (line.start l) (line.end_ l) ->
  (Z.to_nat (line_major (line.start l) (line.end_ l)) <= fuel)%nat ->
  exists ws,
    line.draw bits fuel l w = Some (w ++ ws) /\
    forall p, In p (pixels ws) ->
      Z.min (xy_x (line.start l)) (xy_x (line.end_ l)) <= xy_x p
        <= Z.max (xy_x (line.start l)) (xy_x (line.end_ l)) /\
      Z.min (xy_y (line.start l)) (xy_y (line.end_ l)) <= xy_y p
        <= Z.max (xy_y (line.start l)) (xy_y (line.end_ l)) /\
      2 * Z.abs ((xy_x p - xy_x (line.start l))
                   * (xy_y (line.end_ l) - xy_y (line.start l))
                 - (xy_y p - xy_y (line.start l))
                   * (xy_x (line.end_ l) - xy_x (line.start l)))
      <= Z.max (Z.abs (xy_x (line.end_ l) - xy_x (line.start l)))
               (Z.abs (xy_y (line.end_ l) - xy_y (line.start l))).
Proof.
  intros Hb Hfits Hfuel.
  exists (paint (line.fg l) (line_pixels (line.start l) (line.end_ l))). split.
  - apply (line_draw_walk bits Hb); assumption.
  - rewrite pixels_paint. intros p Hin. apply in_line_pixels in Hin.
    destruct Hin as (i & Hi & ->).
    apply (line_pixel_near (line.start l) (line.end_ l) i). lia.
Qed.

Lemma line_pixels_near_ideal_witness :
  exists ws,
    line.draw 16 5 (line.make (mk_xy 0 0) (mk_xy (-3) 5) Black) [] = Some ([] ++ ws) /\
    forall p, In p (pixels ws) ->
      Z.min 0 (-3) <= xy_x p <= Z.max 0 (-3) /\
      Z.min 0 5 <= xy_y p <= Z.max 0 5 /\
      2 * Z.abs ((xy_x p - 0) * (5 - 0) - (xy_y p - 0) * (-3 - 0))
      <= Z.max (Z.abs (-3 - 0)) (Z.abs (5 - 0)).
Proof.
  apply (line_pixels_near_ideal (color := palette) 16 5
           (line.make (mk_xy 0 0) (mk_xy (-3) 5) Black) []).
  - lia.
  - unfold line_fits, coord_ok. simpl. lia.
  - simpl. lia.
Defined.

(** X5.  A line between two different points writes its start point first
    and never writes its end point. *)
Theorem line_start_first_end_never {color} `{Color color} bits (fuel : nat)
    (l : line.t) (w : window color) :
  16 <= bits ->
  line_fits bits (line.start l) (line.end_ l) ->
  line.start l <> line.end_ l ->
  (Z.to_nat (line_major (line.start l) (line.end_ l)) <= fuel)%nat ->
  exists rest,
    line.draw bits fuel l w = Some (w ++ (line.start l, line.fg l) :: rest) /\
    ~ In (line.end_ l) (pixels ((line.start l, line.fg l) :: rest)).
Proof.
  intros Hb Hfits Hne Hfuel.
  set (n := line_major (line.start l) (line.end_ l)).
  assert (Hn : 0 < n).
  { subst n. destruct (line.start l) as [x0 y0], (line.end_ l) as [x1 y1].
    unfold line_major. cbn [xy_x xy_y].
    destruct (Z.eq_dec x0 x1); destruct (Z.eq_dec y0 y1); try lia.
    exfalso. apply Hne. f_equal; assumption. }
  assert (Hpix : line_pixels (line.start l) (line.end_ l)
                 = line.start l
                   :: map (line_pixel (line.start l) (line.end_ l))
                          (steps 1 (Z.to_nat n - 1))).
  { unfold line_pixels. fold n.
    replace (Z.to_nat n) with (S (Z.to_nat n - 1)) at 1 by lia.
    rewrite steps_S. cbn [map]. rewrite line_pixel_0. reflexivity. }
  exists (paint (line.fg l)
            (map (line_pixel (line.start l) (line.end_ l)) (steps 1 (Z.to_nat n - 1)))).
  split.
  - rewrite (line_draw_walk bits Hb) by assumption. rewrite Hpix. reflexivity.
  - rewrite <- paint_cons, pixels_paint, <- Hpix. intros Hin.
    apply in_line_pixels in Hin. destruct Hin as (i & Hi & Heq).
    rewrite <- (line_pixel_end (line.start l) (line.end_ l)) in Heq at 1.
    apply line_pixel_inj in Heq. lia.
Qed.

Lemma line_start_first_end_never_witness :
  exists rest,
    line.draw 16 5 (line.make (mk_xy 0 0) (mk_xy (-3) 5) Black) []
    = Some ([] ++ (mk_xy 0 0, Black) :: rest) /\
    ~ In (mk_xy (-3) 5) (pixels ((mk_xy 0 0, Black) :: rest)).
Proof.
  apply (line_start_first_end_never (color := palette) 16 5
           (line.make (mk_xy 0 0) (mk_xy (-3) 5) Black) []).
  - lia.
  - unfold line_fits, coord_ok. simpl. lia.
  - discriminate.
  - simpl. lia.
Defined.

(** X6.  A line writes no pixel twice. *)
Theorem line_writes_no_pixel_twice {color} `{Color color} bits (fuel : nat)
    (l : line.t) (w : window color) :
  16 <= bits ->
  line_fits bits (line.start l) (line.end_ l) ->
  (Z.to_nat (line_major (line.start l) (line.end_ l)) <= fuel)%nat ->
  exists ws,
    line.draw bits fuel l w = Some (w ++ ws) /\ NoDup (pixels ws).
Proof.
  intros Hb Hfits Hfuel.
  exists (paint (line.fg l) (line_pixels (line.start l) (line.end_ l))). split.
  - apply (line_draw_walk bits Hb); assumption.
  - rewrite pixels_paint. unfold line_pixels.
    apply NoDup_map_NoDup_ForallPairs; [|apply steps_NoDup].
    intros i j _ _ Heq. apply line_pixel_inj in Heq. exact Heq.
Qed.

Lemma line_writes_no_pixel_twice_witness :
  exists ws,
    line.draw 16 5 (line.make (mk_xy 0 0) (mk_xy (-3) 5) Black) [] = Some ([] ++ ws) /\
    NoDup (pixels ws).
Proof.
  apply (line_writes_no_pixel_twice (color := palette) 16 5
           (line.make (mk_xy 0 0) (mk_xy (-3) 5) Black) []).
  - lia.
  - unfold line_fits, coord_ok. simpl. lia.
  - simpl. lia.
Defined.

(** X7.  The pixels of a line, followed by its end point, are a path:
    each is a neighbour of the next, so the line has no gap and stops one
    step short of its end point. *)
Theorem line_is_connected {color} `{Color color} bits (fuel : nat)
    (l : line.t) (w : window color) :
  16 <= bits ->
  line_fits bits (line.start l) (line.end_ l) ->
  (Z.to_nat (line_major (line.start l) (line.end_ l)) <= fuel)%nat ->
  exists ws,
    line.draw bits fuel l w = Some (w ++ ws) /\
    chain (pixels ws ++ [line.end_ l]).
Proof.
  intros Hb Hfits Hfuel.
  exists (paint (line.fg l) (line_pixels (line.start l) (line.end_ l))). split.
  - apply (line_draw_walk bits Hb); assumption.
  - rewrite pixels_paint.
    set (n := line_major (line.start l) (line.end_ l)).
    assert (Hn : 0 <= n)
      by (pose proof (line_minor_le_major (line.start l) (line.end_ l)); subst n; lia).
    assert (Hall : line_pixels (line.start l) (line.end_ l) ++ [line.end_ l]
                   = map (line_pixel (line.start l) (line.end_ l))
                         (steps 0 (S (Z.to_nat n)))).
    { rewrite steps_snoc, map_app. unfold line_pixels. fold n. cbn [map].
      replace (0 + Z.of_nat (Z.to_nat n)) with n by lia.
      subst n. rewrite line_pixel_end. reflexivity. }
    rewrite Hall. apply chain_steps. intros i Hi.
    apply line_pixel_adjacent. fold n. lia.
Qed.

Lemma line_is_connected_witness :
  exists ws,
    line.draw 16 5 (line.make (mk_xy 0 0) (mk_xy (-3) 5) Black) [] = Some ([] ++ ws) /\
    chain (pixels ws ++ [mk_xy (-3) 5]).
Proof.
  apply (line_is_connected (color := palette) 16 5
           (line.make (mk_xy 0 0) (mk_xy (-3) 5) Black) []).
  - lia.
  - unfold line_fits, coord_ok. simpl. lia.
  - simpl. lia.
Defined.

(** X8.  Every write of a line is in the line's color, whatever the width
    of the integers and the coordinates. *)
Theorem line_writes_own_color {color} bits (fuel : nat) (l : line.t)
    (w w' : window color) :
  line.draw bits fuel l w = Some w' ->
  exists ws, w' = w ++ ws /\ forall p col, In (p, col) ws -> col = line.fg l.
Proof.
  intros Hrun. apply line_draw_colors in Hrun.
  destruct Hrun as (ws & -> & Hws). exists ws. split; [reflexivity|].
  rewrite Forall_forall in Hws. intros p col Hin. exact (Hws (p, col) Hin).
Qed.

Lemma line_writes_own_color_witness :
  exists ws,
    [(mk_xy 0 0, White); (mk_xy 1 0, White)] = [] ++ ws /\
    forall p col, In (p, col) ws -> col = White.
Proof.
  refine (line_writes_own_color 16 2 (line.make (mk_xy 0 0) (mk_xy 2 0) White) [] _ _).
  vm_compute. reflexivity.
Defined.

(* ================================================================== *)
(** * Further properties of [circle::draw] *)
(* ================================================================== *)

(** The rounds of the walk do not fall inside the circle by more than
    [y]: [r^2 - y <= x^2 + y^2]. *)
Lemma octant_inner n r :
  forall x y p,
    walk_inv r x y -> r * r - y <= x * x + y * y ->
    In p (octant n r x y) ->
    r * r - snd p <= fst p * fst p + snd p * snd p.
Proof.
  induction n as [|n IH]; intros x y p Hinv Hin0 Hin; [destruct Hin|].
  rewrite octant_S in Hin. destruct (Z.ltb_spec x y) as [Hlt|]; [|destruct Hin].
  pose proof (walk_inv_step r x y Hinv Hlt) as Hnext.
  assert (Hstep : r * r - next_y r x y
                  <= (x + 1) * (x + 1) + next_y r x y * next_y r x y).
  { unfold next_y, walk_inv in *.
    destruct (Z.leb_spec 0 (midpoint r x y)) as [Hpos|Hneg].
    - unfold midpoint in Hpos. nia.
    - nia. }
  destruct Hin as [<-|Hin].
  - cbn [fst snd]. exact Hstep.
  - apply (IH _ _ _ Hnext Hstep Hin).
Qed.

(** From radius 2 on, no round reaches the center row or the center
    column. *)
Lemma octant_off_axes n r :
  forall x y p,
    0 <= x -> 1 <= y -> (1 <= x \/ midpoint r x y < 0) ->
    In p (octant n r x y) -> 1 <= fst p /\ 1 <= snd p.
Proof.
  induction n as [|n IH]; intros x y p Hx Hy Hfirst Hin; [destruct Hin|].
  rewrite octant_S in Hin. destruct (Z.ltb_spec x y) as [Hlt|]; [|destruct Hin].
  assert (Hny : 1 <= next_y r x y).
  { unfold next_y. destruct (Z.leb_spec 0 (midpoint r x y)); lia. }
  destruct Hin as [<-|Hin].
  - cbn [fst snd]. lia.
  - apply (IH (x + 1) (next_y r x y) p); try lia. exact Hin.
Qed.

Lemma rounds_off_axes r p :
  2 <= r -> In p (rounds r) -> 1 <= fst p /\ 1 <= snd p.
Proof.
  intros Hr Hin. apply (octant_off_axes (Z.to_nat r) r 0 r p); try lia.
  - right. rewrite midpoint_start. lia.
  - exact Hin.
Qed.

(** X9.  An outline-only circle of radius [r >= 1] writes only pixels
    within one pixel of the ideal circle: the squared distance [d2] of every
    written pixel from the center satisfies [r^2 - r <= d2 <= r^2 + r + 1]. *)
Theorem circle_outline_near_ideal {color} `{Color color} bits (fuel : nat)
    (c : circle.t) (w : window color) :
  16 <= bits -> circle_fits bits c ->
  1 <= circle.radius c -> circle.bg c = transparent ->
  (Z.to_nat (2 * circle.radius c) <= fuel)%nat ->
  exists ws,
    circle.draw bits fuel c w = Some (w ++ ws) /\
    forall i j col,
      In (shift (circle.start c) i j, col) ws ->
      circle.radius c * circle.radius c - circle.radius c <= i * i + j * j
      /\ i * i + j * j <= circle.radius c * circle.radius c + circle.radius c + 1.
Proof.
  intros Hb Hfits Hr Hbg Hfuel.
  exists (circle_writes c). split; [apply circle_draw_walk; assumption|].
  rewrite outline_writes by assumption.
  intros i j col Hin. apply in_paint in Hin. destruct Hin as [_ Hin].
  apply in_outline_pixels in Hin. set (r := circle.radius c) in *.
  destruct Hin as [Hax|[Hax|(p & Hp & Hsym)]]; [nia|nia|].
  pose proof (walk_inv_start r ltac:(lia)) as Hstart.
  pose proof (octant_inv _ _ _ _ p Hstart Hp) as [Hinv _].
  pose proof (octant_inner _ _ _ _ p Hstart ltac:(nia) Hp) as Hinner.
  unfold walk_inv, midpoint in Hinv.
  assert (Hsq : i * i + j * j = fst p * fst p + snd p * snd p) by nia.
  nia.
Qed.

Lemma circle_outline_near_ideal_witness :
  exists ws,
    circle.draw 16 10 (circle.make (mk_xy 10 20) 5 Black Transparent) [] = Some ([] ++ ws) /\
    forall i j col,
      In (shift (mk_xy 10 20) i j, col) ws ->
      5 * 5 - 5 <= i * i + j * j /\ i * i + j * j <= 5 * 5 + 5 + 1.
Proof.
  refine (circle_outline_near_ideal (color := palette) 16 10
            (circle.make (mk_xy 10 20) 5 Black Transparent) [] _ _ _ _ _).
  - lia.
  - unfold circle_fits, coord_ok. simpl. lia.
  - simpl. lia.
  - reflexivity.
  - simpl. lia.
Defined.

(** X10.  Whatever its colors, a circle writes only inside the square
    from [center - (r, r)] to [center + (r, r)]. *)
Theorem circle_within_bounding_square {color} `{Color color} bits (fuel : nat)
    (c : circle.t) (w : window color) :
  16 <= bits -> circle_fits bits c ->
  (Z.to_nat (2 * circle.radius c) <= fuel)%nat ->
  exists ws,
    circle.draw bits fuel c w = Some (w ++ ws) /\
    forall p col,
      In (p, col) ws ->
      xy_x (circle.start c) - circle.radius c <= xy_x p
        <= xy_x (circle.start c) + circle.radius c /\
      xy_y (circle.start c) - circle.radius c <= xy_y p
        <= xy_y (circle.start c) + circle.radius c.
Proof.
  intros Hb Hfits Hfuel.
  exists (circle_writes c). split; [apply circle_draw_walk; assumption|].
  intros p col Hin.
  destruct (Z_lt_le_dec (circle.radius c) 1) as [Hsmall|Hr].
  - unfold circle_writes in Hin.
    destruct (Z.ltb_spec (circle.radius c) 1); [destruct Hin|lia].
  - assert (Hp : p = shift (circle.start c) (xy_x p - xy_x (circle.start c))
                                            (xy_y p - xy_y (circle.start c))).
    { destruct p. unfold shift. cbn [xy_x xy_y]. f_equal; ring. }
    rewrite Hp in Hin. apply circle_writes_within in Hin; [|assumption].
    set (i := xy_x p - xy_x (circle.start c)) in *.
    set (j := xy_y p - xy_y (circle.start c)) in *.
    assert (Hi : - circle.radius c <= i <= circle.radius c) by nia.
    assert (Hj : - circle.radius c <= j <= circle.radius c) by nia.
    subst i j. lia.
Qed.

Lemma circle_within_bounding_square_witness :
  exists ws,
    circle.draw 16 10 (circle.make (mk_xy 10 20) 5 Black White) [] = Some ([] ++ ws) /\
    forall p col,
      In (p, col) ws ->
      10 - 5 <= xy_x p <= 10 + 5 /\ 20 - 5 <= xy_y p <= 20 + 5.
Proof.
  refine (circle_within_bounding_square (color := palette) 16 10
            (circle.make (mk_xy 10 20) 5 Black White) [] _ _ _).
  - lia.
  - unfold circle_fits, coord_ok. simpl. lia.
  - simpl. lia.
Defined.

(** X11.  The fill only adds writes: every write of a circle drawn with
    transparent fill is also a write of the circle with the same center,
    radius and foreground drawn with any fill color. *)
Theorem circle_fill_keeps_outline_writes {color} `{Color color} bits (fuel : nat)
    (start : xy) (radius : Z) (fg bg : color) (w : window color) :
  16 <= bits ->
  circle_fits bits (circle.make start radius fg bg) ->
  (Z.to_nat (2 * radius) <= fuel)%nat ->
  exists outline filled,
    circle.draw bits fuel (circle.make start radius fg transparent) w
    = Some (w ++ outline) /\
    circle.draw bits fuel (circle.make start radius fg bg) w
    = Some (w ++ filled) /\
    forall pc, In pc outline -> In pc filled.
Proof.
  intros Hb Hfits Hfuel.
  exists (circle_writes (circle.make start radius fg transparent)),
         (circle_writes (circle.make start radius fg bg)).
  split; [|split].
  - apply circle_draw_walk; assumption.
  - apply circle_draw_walk; assumption.
  - unfold circle_writes, head_writes, round_writes.
    cbn [circle.start circle.radius circle.fg circle.bg].
    destruct (radius <? 1); [intros pc []|].
    assert (Hno : color_neq (transparent : color) transparent = false)
      by (apply color_neq_false; reflexivity).
    rewrite Hno. intros pc.
    rewrite !in_app_iff, !in_flat_map.
    intros [[Hin|[]]|(q & Hq & Hin)].
    + left. left. exact Hin.
    + right. exists q. split; [exact Hq|].
      rewrite in_app_iff in *. destruct Hin as [Hin|[]]. left. exact Hin.
Qed.

Lemma circle_fill_keeps_outline_writes_witness :
  exists outline filled,
    circle.draw 16 6 (circle.make (mk_xy 0 0) 3 Black Transparent) [] = Some ([] ++ outline) /\
    circle.draw 16 6 (circle.make (mk_xy 0 0) 3 Black White) [] = Some ([] ++ filled) /\
    forall pc, In pc outline -> In pc filled.
Proof.
  refine (circle_fill_keeps_outline_writes (H := palette_color) 16 6
            (mk_xy 0 0) 3 Black White [] _ _ _).
  - lia.
  - unfold circle_fits, coord_ok. simpl. lia.
  - simpl. lia.
Defined.

(** X12.  In a filled circle of radius [r >= 2] the whole center row,
    from [center - (r, 0)] to [center + (r, 0)], is written in the
    foreground color and in no other color: the diameter is drawn with
    [fg], and no round of the loop reaches that row. *)
Theorem filled_circle_center_row_foreground {color} `{Color color} bits (fuel : nat)
    (c : circle.t) (w : window color) :
  16 <= bits -> circle_fits bits c ->
  2 <= circle.radius c -> circle.bg c <> transparent ->
  (Z.to_nat (2 * circle.radius c) <= fuel)%nat ->
  exists ws,
    circle.draw bits fuel c w = Some (w ++ ws) /\
    (forall i, Z.abs i <= circle.radius c ->
       In (shift (circle.start c) i 0, circle.fg c) ws) /\
    (forall i col, In (shift (circle.start c) i 0, col) ws -> col = circle.fg c).
Proof.
  intros Hb Hfits Hr Hbg Hfuel.
  exists (circle_writes c). split; [apply circle_draw_walk; assumption|].
  unfold circle_writes. destruct (Z.ltb_spec (circle.radius c) 1); [lia|].
  split.
  - intros i Hi. apply in_app_iff. left. apply head_covers; (assumption || lia).
  - intros i col Hin. apply in_app_iff in Hin. destruct Hin as [Hin|Hin].
    + unfold head_writes in Hin. rewrite in_app_iff in Hin.
      destruct (color_neq (circle.bg c) transparent);
        destruct Hin as [Hin|Hin]; try (apply in_paint in Hin; tauto).
      destruct Hin.
    + apply in_flat_map in Hin. destruct Hin as (q & Hq & Hin).
      pose proof (rounds_off_axes _ q Hr Hq) as [Ha Hb'].
      apply round_within in Hin; lia.
Qed.

Lemma filled_circle_center_row_foreground_witness :
  exists ws,
    circle.draw 16 6 (circle.make (mk_xy 0 0) 3 Black White) [] = Some ([] ++ ws) /\
    (forall i, Z.abs i <= 3 -> In (shift (mk_xy 0 0) i 0, Black) ws) /\
    (forall i col, In (shift (mk_xy 0 0) i 0, col) ws -> col = Black).
Proof.
  refine (filled_circle_center_row_foreground (H := palette_color) 16 6
            (circle.make (mk_xy 0 0) 3 Black White) [] _ _ _ _ _).
  - lia.
  - unfold circle_fits, coord_ok. simpl. lia.
  - simpl. lia.
  - discriminate.
  - simpl. lia.
Defined.

(* ================================================================== *)
(** * The picture a filled circle leaves *)
(* ================================================================== *)

Lemma fold_shown {color} (p : xy) (w : window color) :
  forall shown,
    fold_left (fun shown pc => if xy_eq_dec (fst pc) p then Some (snd pc) else shown)
              w shown
    = match final_color w p with
      | Some col => Some col
      | None => shown
      end.
Proof.
  unfold final_color. induction w as [|pc w IH]; intros shown; [reflexivity|].
  cbn [fold_left]. rewrite IH. symmetry. rewrite IH.
  destruct (fold_left _ w None); [reflexivity|].
  destruct (xy_eq_dec (fst pc) p); reflexivity.
Qed.

(** The last write wins. *)
Lemma final_color_app {color} (w1 w2 : window color) p :
  final_color (w1 ++ w2) p
  = match final_color w2 p with
    | Some col => Some col
    | None => final_color w1 p
    end.
Proof.
  unfold final_color at 1. rewrite fold_left_app. apply fold_shown.
Qed.

Lemma final_color_untouched {color} (w : window color) p :
  ~ In p (pixels w) -> final_color w p = None.
Proof.
  induction w as [|pc w IH]; intros Hnot; [reflexivity|].
  change (pc :: w) with ([pc] ++ w). rewrite final_color_app.
  rewrite IH by (intros Hin; apply Hnot; right; exact Hin).
  unfold final_color. cbn [fold_left].
  destruct (xy_eq_dec (fst pc) p) as [Heq|]; [|reflexivity].
  exfalso. apply Hnot. left. exact Heq.
Qed.

Lemma final_color_paint {color} (col : color) ps p :
  In p ps -> final_color (paint col ps) p = Some col.
Proof.
  induction ps as [|q ps IH]; intros Hin; [destruct Hin|].
  rewrite paint_cons. change ((q, col) :: paint col ps) with ([(q, col)] ++ paint col ps).
  rewrite final_color_app.
  destruct (in_dec xy_eq_dec p ps) as [Hps|Hps].
  - rewrite IH by assumption. reflexivity.
  - rewrite final_color_untouched by (rewrite pixels_paint; assumption).
    destruct Hin as [->|Hin]; [|contradiction].
    unfold final_color. cbn [fold_left fst snd].
    destruct (xy_eq_dec p p); [reflexivity|contradiction].
Qed.

(** A round that writes a pixel left of the center column and off the
    center row writes it last with a chord, in the fill color. *)
Lemma round_final_left {color} `{Color color} (c : circle.t) (q : Z * Z) i j :
  circle.bg c <> transparent ->
  0 <= fst q -> 0 <= snd q -> i < 0 -> j <> 0 ->
  final_color (round_writes c q) (shift (circle.start c) i j) = Some (circle.bg c) \/
  ~ In (shift (circle.start c) i j) (pixels (round_writes c q)).
Proof.
  intros Hbg Ha Hb Hi Hj. destruct q as [a b]. cbn [fst snd] in *.
  unfold round_writes. cbn [fst snd].
  assert (Hyes : color_neq (circle.bg c) transparent = true)
    by (apply color_neq_true; assumption).
  rewrite Hyes.
  destruct (in_dec xy_eq_dec (shift (circle.start c) i j)
                   (chord_pixels (circle.start c) a b)) as [Hch|Hch].
  - left. rewrite final_color_app, final_color_paint by assumption. reflexivity.
  - right. unfold pixels. rewrite map_app. fold (pixels (paint (circle.fg c)
      (octant_pixels (circle.start c) a b))).
    fold (pixels (paint (circle.bg c) (chord_pixels (circle.start c) a b))).
    rewrite !pixels_paint, in_app_iff. intros [Hoct|Hin]; [|contradiction].
    apply Hch. apply in_octant_pixels in Hoct.
    unfold chord_pixels. rewrite !in_app_iff.
    destruct Hoct as [[Hx Hy]|[Hx Hy]].
    + assert (j = b \/ j = - b) as [->| ->] by lia.
      * left. apply in_chord; [lia|]. exists i. split; [lia|reflexivity].
      * right. left. apply in_chord; [lia|]. exists i. split; [lia|reflexivity].
    + assert (j = a \/ j = - a) as [->| ->] by lia.
      * right. right. left. apply in_chord; [lia|].
        exists i. split; [lia|reflexivity].
      * right. right. right. apply in_chord; [lia|].
        exists i. split; [lia|reflexivity].
Qed.

Lemma rounds_final_left {color} `{Color color} (c : circle.t) (qs : list (Z * Z)) p :
  (forall q, In q qs ->
     final_color (round_writes c q) p = Some (circle.bg c) \/
     ~ In p (pixels (round_writes c q))) ->
  final_color (flat_map (round_writes c) qs) p = Some (circle.bg c) \/
  ~ In p (pixels (flat_map (round_writes c) qs)).
Proof.
  induction qs as [|q qs IH]; intros Hq; [right; intros []|].
  cbn [flat_map]. rewrite final_color_app.
  destruct (IH (fun q' Hin => Hq q' (or_intror Hin))) as [Hlater|Hlater].
  - left. rewrite Hlater. reflexivity.
  - rewrite (final_color_untouched _ _ Hlater).
    destruct (Hq q (or_introl eq_refl)) as [Hnow|Hnow].
    + left. exact Hnow.
    + right. unfold pixels in *. rewrite map_app, in_app_iff. tauto.
Qed.

(** From radius 2 on the first round stands at [(1, r)], and its second
    write is the outline point [(-1, r)]. *)
Lemma first_round_written {color} `{Color color} (c : circle.t) :
  2 <= circle.radius c ->
  In (shift (circle.start c) (-1) (circle.radius c), circle.fg c) (circle_writes c).
Proof.
  intros Hr. unfold circle_writes.
  destruct (Z.ltb_spec (circle.radius c) 1); [lia|].
  apply in_app_iff. right. apply in_flat_map.
  exists (1, circle.radius c). split.
  - unfold rounds.
    replace (Z.to_nat (circle.radius c)) with (S (Z.to_nat (circle.radius c) - 1)) by lia.
    rewrite octant_S. destruct (Z.ltb_spec 0 (circle.radius c)); [|lia].
    left. unfold next_y. rewrite midpoint_start.
    destruct (Z.leb_spec 0 (1 - circle.radius c)); [lia|]. reflexivity.
  - unfold round_writes. apply in_app_iff. left. apply in_paint.
    split; [reflexivity|]. cbn [fst snd octant_pixels In]. tauto.
Qed.

(** X13.  The fill overwrites the left half of the outline.  In a filled
    circle every pixel left of the center column and off the center row
    that is written at all, the outline points [(-x, +-y)] and [(-y, +-x)]
    among them, is last written by a chord: it ends up in the fill color.
    (A chord starts on the outline point at its left end and stops before
    the one at its right end.)  From radius 2 on there is such a pixel:
    [(-1, r)] is written in the foreground color. *)
Theorem filled_circle_left_outline_overwritten {color} `{Color color} bits
    (fuel : nat) (c : circle.t) (w : window color) :
  16 <= bits -> circle_fits bits c ->
  circle.bg c <> transparent ->
  (Z.to_nat (2 * circle.radius c) <= fuel)%nat ->
  exists ws,
    circle.draw bits fuel c w = Some (w ++ ws) /\
    (forall i j,
       i < 0 -> j <> 0 ->
       In (shift (circle.start c) i j) (pixels ws) ->
       final_color (w ++ ws) (shift (circle.start c) i j) = Some (circle.bg c)) /\
    (2 <= circle.radius c ->
     In (shift (circle.start c) (-1) (circle.radius c), circle.fg c) ws).
Proof.
  intros Hb Hfits Hbg Hfuel.
  exists (circle_writes c). split; [apply circle_draw_walk; assumption|].
  split; [|apply first_round_written].
  intros i j Hi Hj Hin. rewrite final_color_app.
  assert (Hr : 0 <= circle.radius c) by (unfold circle_fits in Hfits; tauto).
  unfold circle_writes in *.
  destruct (Z.ltb_spec (circle.radius c) 1); [destruct Hin|].
  assert (Hhead : ~ In (shift (circle.start c) i j) (pixels (head_writes c))).
  { unfold pixels. rewrite in_map_iff. intros ([p col] & Heq & Hhead).
    cbn [fst] in Heq. subst p.
    unfold head_writes in Hhead. rewrite in_app_iff, in_paint in Hhead.
    destruct Hhead as [[_ Hax]|Hfill].
    - apply in_axis_pixels in Hax. lia.
    - destruct (color_neq (circle.bg c) transparent); [|destruct Hfill].
      apply in_paint in Hfill. destruct Hfill as [_ Hfill].
      rewrite in_app_iff in Hfill. destruct Hfill as [Hpole|Hdia].
      + cbn [In] in Hpole. destruct Hpole as [Heq|[Heq|[]]];
          apply shift_inj in Heq; lia.
      + apply in_chord in Hdia; [|lia].
        destruct Hdia as (k & _ & Heq). apply shift_inj in Heq. lia. }
  destruct (rounds_final_left c (rounds (circle.radius c)) (shift (circle.start c) i j))
    as [Hfinal|Hnot].
  - intros q Hq.
    pose proof (octant_inv _ _ _ _ q (walk_inv_start _ Hr) Hq) as [Hinv _].
    unfold walk_inv in Hinv. apply round_final_left; (assumption || lia).
  - rewrite final_color_app, Hfinal. reflexivity.
  - exfalso. unfold pixels in *. rewrite map_app, in_app_iff in Hin. tauto.
Qed.

Lemma filled_circle_left_outline_overwritten_witness :
  exists ws,
    circle.draw 16 6 (circle.make (mk_xy 0 0) 3 Black White) [] = Some ([] ++ ws) /\
    (forall i j,
       i < 0 -> j <> 0 ->
       In (shift (mk_xy 0 0) i j) (pixels ws) ->
       final_color ([] ++ ws) (shift (mk_xy 0 0) i j) = Some White) /\
    (2 <= 3 -> In (shift (mk_xy 0 0) (-1) 3, Black) ws).
Proof.
  refine (filled_circle_left_outline_overwritten (H := palette_color) 16 6
            (circle.make (mk_xy 0 0) 3 Black White) [] _ _ _ _).
  - lia.
  - unfold circle_fits, coord_ok. simpl. lia.
  - discriminate.
  - simpl. lia.
Defined.

(* ================================================================== *)
(** * The waits of [hwlib-teensy_40.hpp] *)
(* ================================================================== *)

Section Waits.
Variable ticks : nat -> Z.
Variable ticks_per_us : Z.
Variable bits32 : Z.

Abbreviation us_at := (hwlib.us_at ticks ticks_per_us).
Abbreviation clock_ok := (hwlib.clock_ok ticks ticks_per_us).

(** The microseconds of a reading are a [uint64_t] as they are. *)
Lemma us_at_range k : clock_ok -> 0 <= us_at k < 2 ^ 64.
Proof.
  intros [Htpu Hticks]. specialize (Hticks k). unfold hwlib.us_at.
  split.
  - apply Z.div_pos; lia.
  - apply Z.div_lt_upper_bound; [lia|]. nia.
Qed.

Lemma now_us_at k :
  clock_ok -> hwlib.now_us ticks ticks_per_us k = (us_at k, S k).
Proof.
  intros Hok. unfold hwlib.now_us, hwlib.now_ticks, hwlib.uint64_t.
  fold (us_at k). rewrite Z.mod_small by (apply us_at_range; assumption).
  reflexivity.
Qed.

(** The busy and the other waits are the same functions. *)
Lemma wait_us_loop_same fuel end_ k :
  hwlib.wait_us_loop ticks ticks_per_us fuel end_ k
  = hwlib.wait_us_busy_loop ticks ticks_per_us fuel end_ k.
Proof.
  revert k. induction fuel as [|fuel IH]; intros k; [reflexivity|].
  cbn [hwlib.wait_us_loop hwlib.wait_us_busy_loop].
  destruct (hwlib.now_us ticks ticks_per_us k) as [now k1].
  destruct (now <? end_); [apply IH|reflexivity].
Qed.

Lemma wait_us_same fuel n k :
  hwlib.wait_us ticks ticks_per_us fuel n k
  = hwlib.wait_us_busy ticks ticks_per_us fuel n k.
Proof.
  unfold hwlib.wait_us, hwlib.wait_us_busy.
  destruct (hwlib.now_us ticks ticks_per_us k). apply wait_us_loop_same.
Qed.


(** The loop returns at the first reading that is not before [end_]. *)
Lemma wait_loop_returns fuel end_ :
  clock_ok ->
  forall k k',
    hwlib.wait_us_busy_loop ticks ticks_per_us fuel end_ k = Some k' ->
    (k < k')%nat /\ end_ <= us_at (k' - 1) /\
    forall j, (k <= j < k' - 1)%nat -> us_at j < end_.
Proof.
  intros Hok. induction fuel as [|fuel IH]; intros k k' Hrun; [discriminate|].
  cbn [hwlib.wait_us_busy_loop] in Hrun. rewrite now_us_at in Hrun by assumption.
  destruct (Z.ltb_spec (us_at k) end_) as [Hlt|Hge].
  - apply IH in Hrun. destruct Hrun as (Hk & Hend & Hbefore).
    split; [lia|]. split; [exact Hend|].
    intros j Hj. destruct (Nat.eq_dec j k) as [->|]; [exact Hlt|].
    apply Hbefore. lia.
  - injection Hrun as <-. replace (S k - 1)%nat with k by lia.
    split; [lia|]. split; [exact Hge|]. intros j Hj. lia.
Qed.

Lemma wait_loop_finds fuel end_ :
  clock_ok ->
  forall k j,
    (k <= j)%nat -> end_ <= us_at j -> (j - k < fuel)%nat ->
    exists k', hwlib.wait_us_busy_loop ticks ticks_per_us fuel end_ k = Some k' /\
               (k' <= S j)%nat.
Proof.
  intros Hok. induction fuel as [|fuel IH]; intros k j Hkj Hj Hfuel; [lia|].
  cbn [hwlib.wait_us_busy_loop]. rewrite now_us_at by assumption.
  destruct (Z.ltb_spec (us_at k) end_) as [Hlt|Hge].
  - assert (k <> j) by (intros ->; lia).
    destruct (IH (S k) j ltac:(lia) Hj ltac:(lia)) as (k' & Hrun & Hk').
    exists k'. split; assumption.
  - exists (S k). split; [reflexivity|lia].
Qed.

(** X14.  A wait of [n >= 0] microseconds never returns early: when
    [wait_us_busy(n)] (or [wait_us(n)]) returns it has read the clock at
    least twice, its last reading is at least [n] microseconds after its
    first, and no reading in between was. *)
Theorem wait_us_never_early (fuel : nat) (n : Z) (k k' : nat) :
  clock_ok ->
  0 <= n -> us_at k + n < 2 ^ 64 ->
  hwlib.wait_us_busy ticks ticks_per_us fuel n k = Some k' \/
  hwlib.wait_us ticks ticks_per_us fuel n k = Some k' ->
  (k + 2 <= k')%nat /\
  us_at k + n <= us_at (k' - 1) /\
  forall j, (k < j < k' - 1)%nat -> us_at j < us_at k + n.
Proof.
  intros Hok Hn Hwrap Hrun.
  assert (Hbusy : hwlib.wait_us_busy ticks ticks_per_us fuel n k = Some k')
    by (destruct Hrun as [Hrun|Hrun]; [|rewrite wait_us_same in Hrun]; exact Hrun).
  unfold hwlib.wait_us_busy in Hbusy. rewrite now_us_at in Hbusy by assumption.
  pose proof (us_at_range k Hok) as Hk.
  unfold hwlib.uint64_t in Hbusy.
  rewrite (Z.mod_small n) in Hbusy by lia.
  rewrite Z.mod_small in Hbusy by lia.
  apply (wait_loop_returns _ _ Hok) in Hbusy.
  destruct Hbusy as (Hlt & Hend & Hbefore).
  split; [lia|]. split; [exact Hend|].
  intros j Hj. apply Hbefore. lia.
Qed.

(** X15.  A wait of [n >= 0] microseconds returns as soon as it reads the
    clock at or past its deadline: if reading [j] is at least [n]
    microseconds after the first reading, the wait returns after at most
    the readings up to [j]. *)
Theorem wait_us_returns_on_time (fuel : nat) (n : Z) (k j : nat) :
  clock_ok ->
  0 <= n -> us_at k + n < 2 ^ 64 ->
  (k < j)%nat -> us_at k + n <= us_at j -> (j - k <= fuel)%nat ->
  exists k',
    hwlib.wait_us_busy ticks ticks_per_us fuel n k = Some k' /\
    hwlib.wait_us ticks ticks_per_us fuel n k = Some k' /\
    (k' <= S j)%nat.
Proof.
  intros Hok Hn Hwrap Hkj Hj Hfuel.
  pose proof (us_at_range k Hok) as Hk.
  destruct (wait_loop_finds fuel (us_at k + n) Hok (S k) j ltac:(lia) Hj ltac:(lia))
    as (k' & Hrun & Hk').
  assert (Hbusy : hwlib.wait_us_busy ticks ticks_per_us fuel n k = Some k').
  { unfold hwlib.wait_us_busy. rewrite now_us_at by assumption.
    unfold hwlib.uint64_t. rewrite (Z.mod_small n) by lia.
    rewrite Z.mod_small by lia. exact Hrun. }
  exists k'. split; [exact Hbusy|]. split; [|exact Hk'].
  rewrite wait_us_same. exact Hbusy.
Qed.

(** X16.  A negative [n] is converted to [uint64_t] in [now_us() + n].  If
    the clock shows at least [|n|] microseconds, the deadline lies in the
    past and the wait returns after its second reading (if that is not
    before the first).  If it shows less, the sum wraps around: the wait
    does not return before the clock shows [2^64 - (|n| - now)]
    microseconds. *)
Theorem wait_us_negative (fuel : nat) (n : Z) (k : nat) :
  clock_ok ->
  - 2 ^ 63 <= n < 0 ->
  (0 <= us_at k + n -> us_at k <= us_at (S k) -> (1 <= fuel)%nat ->
   hwlib.wait_us_busy ticks ticks_per_us fuel n k = Some (S (S k)) /\
   hwlib.wait_us ticks ticks_per_us fuel n k = Some (S (S k))) /\
  (us_at k + n < 0 ->
   forall k',
     hwlib.wait_us_busy ticks ticks_per_us fuel n k = Some k' \/
     hwlib.wait_us ticks ticks_per_us fuel n k = Some k' ->
     2 ^ 64 + (us_at k + n) <= us_at (k' - 1)).
Proof.
  intros Hok Hn.
  pose proof (us_at_range k Hok) as Hk.
  assert (Hconv : hwlib.uint64_t n = 2 ^ 64 + n).
  { unfold hwlib.uint64_t. symmetry.
    apply Z.mod_unique with (q := -1); lia. }
  split.
  - intros Hpast Hmono Hfuel.
    assert (Hbusy : hwlib.wait_us_busy ticks ticks_per_us fuel n k = Some (S (S k))).
    { unfold hwlib.wait_us_busy. rewrite now_us_at by assumption. rewrite Hconv.
      assert (Hend : hwlib.uint64_t (us_at k + (2 ^ 64 + n)) = us_at k + n).
      { unfold hwlib.uint64_t. symmetry.
        apply Z.mod_unique with (q := 1); lia. }
      rewrite Hend. destruct fuel as [|fuel]; [lia|].
      cbn [hwlib.wait_us_busy_loop]. rewrite now_us_at by assumption.
      destruct (Z.ltb_spec (us_at (S k)) (us_at k + n)); [lia|reflexivity]. }
    split; [exact Hbusy|]. rewrite wait_us_same. exact Hbusy.
  - intros Hwrap k' Hrun.
    assert (Hbusy : hwlib.wait_us_busy ticks ticks_per_us fuel n k = Some k')
      by (destruct Hrun as [Hrun|Hrun]; [|rewrite wait_us_same in Hrun]; exact Hrun).
    unfold hwlib.wait_us_busy in Hbusy. rewrite now_us_at in Hbusy by assumption.
    rewrite Hconv in Hbusy.
    assert (Hend : hwlib.uint64_t (us_at k + (2 ^ 64 + n)) = 2 ^ 64 + (us_at k + n)).
    { unfold hwlib.uint64_t. rewrite Z.mod_small by lia. ring. }
    rewrite Hend in Hbusy.
    apply (wait_loop_returns _ _ Hok) in Hbusy. tauto.
Qed.








End Waits.

Lemma steady_clock_ok : hwlib.clock_ok steady_ticks 600.
Proof.
  split; [lia|]. intros k. unfold steady_ticks. lia.
Qed.

Lemma steady_clock_mono i :
  hwlib.us_at steady_ticks 600 i <= hwlib.us_at steady_ticks 600 (S i).
Proof.
  unfold hwlib.us_at, steady_ticks. apply Z.div_le_mono; lia.
Qed.


Lemma late_clock_ok : hwlib.clock_ok late_ticks 1.
Proof.
  split; [lia|]. intros [|k]; cbn [late_ticks]; lia.
Qed.

Lemma wait_us_never_early_witness :
  (0 + 2 <= 4)%nat /\
  hwlib.us_at steady_ticks 600 0 + 2500 <= hwlib.us_at steady_ticks 600 (4 - 1) /\
  forall j, (0 < j < 4 - 1)%nat ->
    hwlib.us_at steady_ticks 600 j < hwlib.us_at steady_ticks 600 0 + 2500.
Proof.
  apply (wait_us_never_early steady_ticks 600 5 2500 0 4).
  - exact steady_clock_ok.
  - lia.
  - vm_compute. reflexivity.
  - left. vm_compute. reflexivity.
Defined.

Lemma wait_us_returns_on_time_witness :
  exists k',
    hwlib.wait_us_busy steady_ticks 600 3 2500 0 = Some k' /\
    hwlib.wait_us steady_ticks 600 3 2500 0 = Some k' /\
    (k' <= 4)%nat.
Proof.
  apply (wait_us_returns_on_time steady_ticks 600 3 2500 0 3).
  - exact steady_clock_ok.
  - lia.
  - vm_compute. reflexivity.
  - lia.
  - vm_compute. discriminate.
  - lia.
Defined.

Lemma wait_us_negative_witness :
  (hwlib.wait_us_busy steady_ticks 600 1 (-5) 1 = Some 3%nat /\
   hwlib.wait_us steady_ticks 600 1 (-5) 1 = Some 3%nat) /\
  2 ^ 64 + (hwlib.us_at late_ticks 1 0 + -5) <= hwlib.us_at late_ticks 1 (2 - 1).
Proof.
  split.
  - apply (wait_us_negative steady_ticks 600 1 (-5) 1 steady_clock_ok ltac:(lia)).
    + vm_compute. discriminate.
    + apply steady_clock_mono.
    + lia.
  - apply (wait_us_negative late_ticks 1 1 (-5) 0 late_clock_ok ltac:(lia)).
    + vm_compute. reflexivity.
    + left. vm_compute. reflexivity.
Defined.



(* ================================================================== *)
(** * A radius beyond the signed range *)
(* ================================================================== *)

Lemma int_opp_uint bits z :
  int_fast16_t bits (- uint_fast16_t bits z) = int_fast16_t bits (- z).
Proof.
  unfold int_fast16_t, uint_fast16_t. f_equal.
  replace (- (z mod 2 ^ bits) + 2 ^ (bits - 1))
    with (2 ^ (bits - 1) - z mod 2 ^ bits) by ring.
  rewrite Zminus_mod_idemp_r. f_equal. ring.
Qed.

Lemma circle_draw_loop_done {color} `{Color color} bits (line_fuel fuel : nat)
    (c : circle.t) fx ddFx ddFy x y (w : window color) :
  y <= x ->
  circle.draw_loop bits line_fuel fuel c fx ddFx ddFy x y w = Some w.
Proof.
  intros Hle. assert (Hno : (x <? y) = false) by (apply Z.ltb_ge; assumption).
  destruct fuel; cbn [circle.draw_loop]; rewrite Hno; reflexivity.
Qed.

(** X19.  The radius is unsigned.  A circle constructed with the radius
    [-k] holds the radius [2^bits - k]; for it [y = radius] is negative, the
    octant loop does not run, and with transparent fill the circle is the
    four axis points at distance [k], written bottom, top, left, right. *)
Theorem circle_negative_radius {color} `{Color color} bits (fuel : nat)
    (start : xy) (k : Z) (fg : color) (w : window color) :
  16 <= bits -> 1 <= k ->
  coord_ok bits (xy_x start - k) -> coord_ok bits (xy_x start + k) ->
  coord_ok bits (xy_y start - k) -> coord_ok bits (xy_y start + k) ->
  circle.draw bits fuel
    (circle.make start (uint_fast16_t bits (- k)) fg transparent) w
  = Some (w ++ paint fg [shift start 0 (- k); shift start 0 k;
                         shift start (- k) 0; shift start k 0]).
Proof.
  intros Hb Hk Hx0 Hx1 Hy0 Hy1.
  destruct (pow_split bits Hb) as (P & HP & H3 & H1 & H0).
  unfold coord_ok in *. rewrite H3 in *.
  assert (Hradius : uint_fast16_t bits (- k) = 8 * P - k).
  { unfold uint_fast16_t. rewrite H0. symmetry.
    apply Z.mod_unique with (q := -1); lia. }
  unfold circle.draw. cbn [circle.start circle.radius circle.fg circle.bg].
  destruct (Z.ltb_spec (uint_fast16_t bits (- k)) 1) as [Hlt|_]; [lia|].
  assert (Hno : color_neq (transparent : color) transparent = false)
    by (apply color_neq_false; reflexivity).
  rewrite Hno. cbn [bind].
  rewrite !int_uint by assumption. rewrite !int_opp_uint.
  rewrite Z.opp_involutive.
  assert (Hneg : int_fast16_t bits (- k) = - k)
    by (apply (int_fits bits Hb); rewrite H3; lia).
  assert (Hpos : int_fast16_t bits k = k)
    by (apply (int_fits bits Hb); rewrite H3; lia).
  rewrite Hneg, Hpos.
  rewrite circle_draw_loop_done by lia.
  unfold write, xy_add, shift. cbn [xy_x xy_y paint map].
  rewrite !(int_fits bits Hb) by (rewrite H3; lia).
  rewrite <- !app_assoc. reflexivity.
Qed.

Lemma circle_negative_radius_witness :
  circle.draw 16 0 (circle.make (mk_xy 10 20) (uint_fast16_t 16 (- 3)) Black Transparent) []
  = Some ([] ++ paint Black [shift (mk_xy 10 20) 0 (- 3); shift (mk_xy 10 20) 0 3;
                             shift (mk_xy 10 20) (- 3) 0; shift (mk_xy 10 20) 3 0]).
Proof.
  refine (circle_negative_radius (H := palette_color) 16 0 (mk_xy 10 20) 3 Black []
            _ _ _ _ _ _).
  - lia.
  - lia.
  - unfold coord_ok. simpl. lia.
  - unfold coord_ok. simpl. lia.
  - unfold coord_ok. simpl. lia.
  - unfold coord_ok. simpl. lia.
Defined.

(* ================================================================== *)
(** * The pin names of the Teensy 4.0 *)
(* ================================================================== *)

(** X20.  The 44 pin names stand for 24 pins: the number of every name is
    between 0 and 23 and is the number of one of the digital pins [d0] to
    [d23], as which the pin can be addressed as well. *)
Theorem pin_names_are_digital_pins (p : teensy_40.pins) :
  0 <= teensy_40.pin_number p <= 23 /\
  exists d,
    teensy_40.digital (teensy_40.pin_number p) = Some d /\
    teensy_40.pin_number d = teensy_40.pin_number p.
Proof.
  destruct p; (split; [vm_compute; split; discriminate|]);
    eexists; (split; [vm_compute; reflexivity|vm_compute; reflexivity]).
Qed.
